(** * Aegis: the per-model worker pool, its registry and the WASM string ABI

    A shallow embedding of [src/domain/thread-pool.js] (ThreadPool,
    ThreadPoolFactory and the helpers [kill], [newThread], [postJob]), of
    the [parse]/[clean]/[lift] functions of the WASM interop adapter, and
    of the main-thread side of the use cases that submit jobs
    ([invokePort], [editModel], [findModel]).

    The main-thread code is single threaded: every method runs to its next
    [await] without interruption.  Each such uninterrupted segment is one
    transition of an event-loop machine whose labels are the things the
    environment does: a caller invoking a method, a worker posting a message,
    a timer firing, a suspended continuation being resumed.

    Contents: the pool machine and its properties; the registry of the
    factory as a JavaScript [Map]; the adapter (module [Wasm]); the use
    cases. *)

From stdpp Require Import base list strings gmap.
From Stdlib Require Import ZArith Lia Ascii.

Local Open Scope Z_scope.

(** ** JavaScript values used by the pool *)

Module Js.

(** The numbers that [Math.round(q / r * 100)] can produce when [q] and [r]
    are counters: an integer, [NaN] (0/0) or [Infinity] (q/0, q > 0).
    The quotient is taken exactly; the rounding of the two double
    operations is not modelled. *)
Inductive number :=
| NaN
| Infinity
| Num (z : Z).

(** [Math.round]: nearest integer, ties towards +Infinity, here of the
    fraction [n / d] with [d > 0]. *)
Definition round_div (n d : Z) : Z := (2 * n + d) / (2 * d).

(** [Math.round((q / r) * 100)] for non-negative counters [q], [r]. *)
Definition round_percent (q r : Z) : number :=
  if r =? 0 then (if q =? 0 then NaN else Infinity)
  else Num (round_div (100 * q) r).

(** [x > y] for a number [x] and an integer [y]; every comparison with
    [NaN] is false. *)
Definition gt (x : number) (y : Z) : bool :=
  match x with
  | NaN => false
  | Infinity => true
  | Num z => y <? z
  end.

(** [a || b] on an integer option: 0 is falsy. *)
Definition or_default (a : option Z) (b : Z) : Z :=
  match a with
  | Some z => if z =? 0 then b else z
  | None => b
  end.

(** The three states of a promise. *)
Inductive pstate (A : Type) :=
| Pending
| Resolved (v : A)
| Rejected (e : string).
Arguments Pending {A}.
Arguments Resolved {A} v.
Arguments Rejected {A} e.

(** Calling the [resolve] function of a promise: settles it when it is
    pending, does nothing otherwise. *)
Definition resolve {A} (v : A) (p : pstate A) : pstate A :=
  match p with
  | Pending => Resolved v
  | _ => p
  end.

(** Calling the [reject] function of a promise. *)
Definition reject {A} (e : string) (p : pstate A) : pstate A :=
  match p with
  | Pending => Rejected e
  | _ => p
  end.

(** [p.catch(console.error)]: a rejection is logged and turned into a
    promise resolved with what [console.error] returns, [undefined]. *)
Definition catch_log {A} (undefined : A) (p : pstate A) : pstate A :=
  match p with
  | Rejected _ => Resolved undefined
  | _ => p
  end.

(** [Array.prototype.shift]: removes and returns the first element,
    [undefined] on an empty array.  Elements may themselves be
    [undefined] ([None]). *)
Definition shift {A} (l : list (option A)) : option A * list (option A) :=
  match l with
  | [] => (None, [])
  | x :: l' => (x, l')
  end.

(** [String.prototype.toUpperCase] on ASCII text. *)
Definition upper_ascii (c : ascii) : ascii :=
  let n := nat_of_ascii c in
  if (andb (Nat.leb 97 n) (Nat.leb n 122)) then ascii_of_nat (n - 32) else c.

Fixpoint toUpperCase (s : string) : string :=
  match s with
  | EmptyString => EmptyString
  | String c s' => String (upper_ascii c) (toUpperCase s')
  end.

End Js.

(** ** The ThreadPool object *)

(** A Thread handle: [id] is [worker.threadId], [createdAt] is [Date.now()]
    at construction.  [file] and [pool] are the same for all threads of a
    pool and are left out. *)
Record Thread := mkThread {
  id : nat;
  createdAt : Z
}.

(** What a worker replies and what a caller of [run] receives: a Result, or
    [undefined]. *)
Inductive value :=
| Undefined
| Result (hasError : bool) (body : string).

(** A submitted job.  [jid] identifies the promise that [run] returned for
    it, that is, which [resolve] the job's closures captured. *)
Record Job := mkJob {
  jobName : string;
  jobData : string;
  jid : nat
}.

(** Constructor options; an absent option is [None]. *)
Record Options := mkOptions {
  opt_preload : bool;
  opt_maxThreads : option Z;
  opt_minThreads : option Z;
  opt_queueTolerance : option Z
}.

Definition DEFAULT_THREADPOOL_MIN : Z := 1.
Definition DEFAULT_THREADPOOL_MAX : Z := 2.
Definition DEFAULT_JOBQUEUE_TOLERANCE : Z := 25.

(** The fields of a ThreadPool.  [freeThreads] can hold [undefined]
    entries: [startThreads] pushes whatever [startThread] returned.
    A waiting job is the closure [thread => postJob({..., cb})], which is
    determined by its job. *)
Record ThreadPool := mkPool {
  name : string;
  freeThreads : list (option Thread);
  waitingJobs : list Job;
  maxThreads : Z;
  minThreads : Z;
  queueTolerance : Z;
  closed : bool;
  reloads : Z;
  jobsRequested : Z;
  jobsQueued : Z;
  totalThreads : Z
}.

(** The constructor, without the preload start (see [StartThreads]). *)
Definition new_ThreadPool (nm : string) (waiting : list Job) (o : Options) : ThreadPool :=
  {| name := nm;
     freeThreads := [];
     waitingJobs := waiting;
     maxThreads := Js.or_default (opt_maxThreads o) DEFAULT_THREADPOOL_MAX;
     minThreads := Js.or_default (opt_minThreads o) DEFAULT_THREADPOOL_MIN;
     queueTolerance := Js.or_default (opt_queueTolerance o) DEFAULT_JOBQUEUE_TOLERANCE;
     closed := false;
     reloads := 0;
     jobsRequested := 0;
     jobsQueued := 0;
     totalThreads := 0 |}.

Definition default_options : Options :=
  {| opt_preload := false; opt_maxThreads := None;
     opt_minThreads := None; opt_queueTolerance := None |}.

Section PoolMethods.
Variable p : ThreadPool.

Definition poolSize : Z := totalThreads p.
Definition maxPoolSize : Z := maxThreads p.
Definition minPoolSize : Z := minThreads p.
Definition jobQueueDepth : nat := length (waitingJobs p).
Definition availThreadCount : nat := length (freeThreads p).
Definition noJobsRunning : bool := totalThreads p =? Z.of_nat (length (freeThreads p)).
Definition jobQueueRate : Js.number := Js.round_percent (jobsQueued p) (jobsRequested p).
Definition maxJobQueueRate : Z := queueTolerance p.

(** The condition under which [threadAlloc] calls [startThread]. *)
Definition threadAlloc_grows : bool :=
  (poolSize =? 0) || ((poolSize <? maxPoolSize) && Js.gt jobQueueRate maxJobQueueRate).

Definition set_freeThreads (l : list (option Thread)) : ThreadPool :=
  {| name := name p; freeThreads := l; waitingJobs := waitingJobs p;
     maxThreads := maxThreads p; minThreads := minThreads p;
     queueTolerance := queueTolerance p; closed := closed p;
     reloads := reloads p; jobsRequested := jobsRequested p;
     jobsQueued := jobsQueued p; totalThreads := totalThreads p |}.

Definition set_waitingJobs (l : list Job) : ThreadPool :=
  {| name := name p; freeThreads := freeThreads p; waitingJobs := l;
     maxThreads := maxThreads p; minThreads := minThreads p;
     queueTolerance := queueTolerance p; closed := closed p;
     reloads := reloads p; jobsRequested := jobsRequested p;
     jobsQueued := jobsQueued p; totalThreads := totalThreads p |}.

Definition set_closed (b : bool) : ThreadPool :=
  {| name := name p; freeThreads := freeThreads p; waitingJobs := waitingJobs p;
     maxThreads := maxThreads p; minThreads := minThreads p;
     queueTolerance := queueTolerance p; closed := b;
     reloads := reloads p; jobsRequested := jobsRequested p;
     jobsQueued := jobsQueued p; totalThreads := totalThreads p |}.

Definition set_reloads (n : Z) : ThreadPool :=
  {| name := name p; freeThreads := freeThreads p; waitingJobs := waitingJobs p;
     maxThreads := maxThreads p; minThreads := minThreads p;
     queueTolerance := queueTolerance p; closed := closed p;
     reloads := n; jobsRequested := jobsRequested p;
     jobsQueued := jobsQueued p; totalThreads := totalThreads p |}.

Definition set_jobsRequested (n : Z) : ThreadPool :=
  {| name := name p; freeThreads := freeThreads p; waitingJobs := waitingJobs p;
     maxThreads := maxThreads p; minThreads := minThreads p;
     queueTolerance := queueTolerance p; closed := closed p;
     reloads := reloads p; jobsRequested := n;
     jobsQueued := jobsQueued p; totalThreads := totalThreads p |}.

Definition set_jobsQueued (n : Z) : ThreadPool :=
  {| name := name p; freeThreads := freeThreads p; waitingJobs := waitingJobs p;
     maxThreads := maxThreads p; minThreads := minThreads p;
     queueTolerance := queueTolerance p; closed := closed p;
     reloads := reloads p; jobsRequested := jobsRequested p;
     jobsQueued := n; totalThreads := totalThreads p |}.

Definition set_totalThreads (n : Z) : ThreadPool :=
  {| name := name p; freeThreads := freeThreads p; waitingJobs := waitingJobs p;
     maxThreads := maxThreads p; minThreads := minThreads p;
     queueTolerance := queueTolerance p; closed := closed p;
     reloads := reloads p; jobsRequested := jobsRequested p;
     jobsQueued := jobsQueued p; totalThreads := n |}.

Definition open : ThreadPool := set_closed false.
Definition close : ThreadPool := set_closed true.
Definition bumpDeployCount : ThreadPool := set_reloads (reloads p + 1).

End PoolMethods.

(** ** The event loop around one pool *)

(** Who is suspended on the promise of [startThread]. *)
Inductive waiter :=
| WRun (j : Job)                       (* run: [thread = await this.threadAlloc()] *)
| WStartThreads (i : Z) (c : nat) (preload : bool).
                                       (* startThreads: iteration [i] of call [c] *)

(** What the promise of a lifecycle call ([drain], [startThreads]) is
    resolved with: the pool ([this]) or [undefined]. *)
Inductive retval := This | Undef.

(** Observable effects of a transition. *)
Inductive event :=
| EStartThread                                   (* [startThread()] is called *)
| ENewWorker (tid : nat)                         (* [new Worker(file, ...)] returned *)
| EPostMessage (tid : nat) (nm data : string)    (* [worker.postMessage({name, data})] *)
| EEmit (ev : string)                            (* [pool.emit(ev)] *)
| EConsole (level : string) (what : string)      (* console.error / warn / info / debug *)
| EUncaught (what : string)                      (* exception nobody catches *)
| ETerminate (tid : nat).                        (* [worker.terminate()] *)

Record Sys := mkSys {
  pool : ThreadPool;
  now : Z;                                  (* Date.now(), in ms *)
  nextThreadId : nat;                       (* threadId of the next Worker *)
  promises : list (Js.pstate value);        (* the promise returned by [run] for each job *)
  calls : list (Js.pstate retval);          (* the promises returned by [drain] / [startThreads] *)
  starting : list (Thread * waiter * Z);    (* Workers awaiting their first message,
                                               with the deadline of the 10 s timer *)
  resuming : list (waiter * option Thread); (* continuations whose awaited promise is
                                               resolved, ready to run *)
  busy : list (Thread * Job * bool);        (* [once('message')] handlers of postJob:
                                               thread, job, whether [cb] was given *)
  drainWaiters : list (nat * Z);            (* [once('noJobsRunning')] listeners of drain:
                                               call and deadline of the 4 s timer *)
  stopping : list (Z * list (option Thread)); (* timers of stopThreads: deadline, [kill] *)
  dying : list (Thread * Z)                 (* threads sent 'shutdown', with the deadline
                                               of the 5 s timer of [kill] *)
}.

Definition init (p : ThreadPool) : Sys :=
  {| pool := p; now := 0; nextThreadId := 1; promises := []; calls := [];
     starting := []; resuming := []; busy := []; drainWaiters := [];
     stopping := []; dying := [] |}.

Section SysUpdate.
Variable s : Sys.

Definition with_pool (p : ThreadPool) : Sys :=
  {| pool := p; now := now s; nextThreadId := nextThreadId s;
     promises := promises s; calls := calls s; starting := starting s;
     resuming := resuming s; busy := busy s; drainWaiters := drainWaiters s;
     stopping := stopping s; dying := dying s |}.

Definition with_now (t : Z) : Sys :=
  {| pool := pool s; now := t; nextThreadId := nextThreadId s;
     promises := promises s; calls := calls s; starting := starting s;
     resuming := resuming s; busy := busy s; drainWaiters := drainWaiters s;
     stopping := stopping s; dying := dying s |}.

Definition with_nextThreadId (n : nat) : Sys :=
  {| pool := pool s; now := now s; nextThreadId := n;
     promises := promises s; calls := calls s; starting := starting s;
     resuming := resuming s; busy := busy s; drainWaiters := drainWaiters s;
     stopping := stopping s; dying := dying s |}.

Definition with_promises (l : list (Js.pstate value)) : Sys :=
  {| pool := pool s; now := now s; nextThreadId := nextThreadId s;
     promises := l; calls := calls s; starting := starting s;
     resuming := resuming s; busy := busy s; drainWaiters := drainWaiters s;
     stopping := stopping s; dying := dying s |}.

Definition with_calls (l : list (Js.pstate retval)) : Sys :=
  {| pool := pool s; now := now s; nextThreadId := nextThreadId s;
     promises := promises s; calls := l; starting := starting s;
     resuming := resuming s; busy := busy s; drainWaiters := drainWaiters s;
     stopping := stopping s; dying := dying s |}.

Definition with_starting (l : list (Thread * waiter * Z)) : Sys :=
  {| pool := pool s; now := now s; nextThreadId := nextThreadId s;
     promises := promises s; calls := calls s; starting := l;
     resuming := resuming s; busy := busy s; drainWaiters := drainWaiters s;
     stopping := stopping s; dying := dying s |}.

Definition with_resuming (l : list (waiter * option Thread)) : Sys :=
  {| pool := pool s; now := now s; nextThreadId := nextThreadId s;
     promises := promises s; calls := calls s; starting := starting s;
     resuming := l; busy := busy s; drainWaiters := drainWaiters s;
     stopping := stopping s; dying := dying s |}.

Definition with_busy (l : list (Thread * Job * bool)) : Sys :=
  {| pool := pool s; now := now s; nextThreadId := nextThreadId s;
     promises := promises s; calls := calls s; starting := starting s;
     resuming := resuming s; busy := l; drainWaiters := drainWaiters s;
     stopping := stopping s; dying := dying s |}.

Definition with_drainWaiters (l : list (nat * Z)) : Sys :=
  {| pool := pool s; now := now s; nextThreadId := nextThreadId s;
     promises := promises s; calls := calls s; starting := starting s;
     resuming := resuming s; busy := busy s; drainWaiters := l;
     stopping := stopping s; dying := dying s |}.

Definition with_stopping (l : list (Z * list (option Thread))) : Sys :=
  {| pool := pool s; now := now s; nextThreadId := nextThreadId s;
     promises := promises s; calls := calls s; starting := starting s;
     resuming := resuming s; busy := busy s; drainWaiters := drainWaiters s;
     stopping := l; dying := dying s |}.

Definition with_dying (l : list (Thread * Z)) : Sys :=
  {| pool := pool s; now := now s; nextThreadId := nextThreadId s;
     promises := promises s; calls := calls s; starting := starting s;
     resuming := resuming s; busy := busy s; drainWaiters := drainWaiters s;
     stopping := stopping s; dying := l |}.

End SysUpdate.

(** A segment of main-thread code: a state change and the effects it has. *)
Definition act := Sys -> Sys * list event.

Definition ret : act := fun s => (s, []).
Definition emit (e : event) : act := fun s => (s, [e]).
Definition modify (f : Sys -> Sys) : act := fun s => (f s, []).
Definition modify_pool (f : ThreadPool -> ThreadPool) : act :=
  fun s => (with_pool s (f (pool s)), []).
Definition andThen (a b : act) : act :=
  fun s => let '(s1, e1) := a s in let '(s2, e2) := b s1 in (s2, e1 ++ e2).
Notation "a >>> b" := (andThen a b) (at level 65, right associativity).

(** Calling the [resolve] that job [j]'s closures captured: the promise
    that [run] returned for [j] settles if it is still pending. *)
Definition resolve_job (j : nat) (v : value) : act :=
  modify (fun s => with_promises s (alter (Js.resolve v) j (promises s))).

Definition resolve_call (c : nat) (v : retval) : act :=
  modify (fun s => with_calls s (alter (Js.resolve v) c (calls s))).

(** The first element satisfying [f], and the list without it. *)
Fixpoint extract {A} (f : A -> bool) (l : list A) : option (A * list A) :=
  match l with
  | [] => None
  | x :: l' =>
      if f x then Some (x, l')
      else match extract f l' with
           | Some (y, r) => Some (y, x :: r)
           | None => None
           end
  end.

(** *** The helpers [newThread], [postJob], [kill] *)

(** [newThread] up to its suspension.  [spawn] tells whether
    [new Worker(file, ...)] returns ([true]) or throws ([false]).  When it
    throws, the error is logged, the promise is rejected, and
    [.catch(console.error)] turns that into a promise resolved with
    [undefined]: the waiter resumes with no thread. *)
Definition newThread (spawn : bool) (w : waiter) : act := fun s =>
  if spawn then
    let t := {| id := nextThreadId s; createdAt := now s |} in
    (modify (fun s => with_nextThreadId s (S (nextThreadId s))) >>>
     emit (ENewWorker (id t)) >>>
     modify_pool (fun p => set_totalThreads p (totalThreads p + 1)) >>>
     modify (fun s => with_starting s (starting s ++ [(t, w, now s + 10000)]))) s
  else
    (emit (EConsole "error" "newThread") >>>
     emit (EConsole "error" "newThread.catch") >>>
     modify (fun s => with_resuming s (resuming s ++ [(w, None)]))) s.

Definition startThread (spawn : bool) (w : waiter) : act :=
  emit EStartThread >>> newThread spawn w.

(** [postJob] up to its suspension: the handler is registered and the job
    posted.  With [thread] undefined, [thread.worker] throws inside the
    executor; the rejection is logged and nothing else happens. *)
Definition postJob (thr : option Thread) (j : Job) (cb : bool) : act :=
  match thr with
  | Some t =>
      modify (fun s => with_busy s (busy s ++ [(t, j, cb)])) >>>
      emit (EPostMessage (id t) (jobName j) (jobData j))
  | None => emit (EConsole "error" "postJob.catch")
  end.

(** [kill] up to its suspension: 5 s timer, exit listener, 'shutdown'. *)
Definition kill (t : Thread) : act :=
  emit (EConsole "info" "killing thread") >>>
  modify (fun s => with_dying s (dying s ++ [(t, now s + 5000)])) >>>
  emit (EPostMessage (id t) "shutdown" "").

(** *** ThreadPool methods *)

Definition threadAlloc (spawn : bool) (w : waiter) : act := fun s =>
  if threadAlloc_grows (pool s) then startThread spawn w s
  else modify (fun s => with_resuming s (resuming s ++ [(w, None)])) s.

(** The tail of [run]: the job's closure goes on [waitingJobs]. *)
Definition enqueue (j : Job) : act :=
  emit (EConsole "debug" "no threads: queue job") >>>
  modify_pool (fun p => set_waitingJobs p (waitingJobs p ++ [j])) >>>
  modify_pool (fun p => set_jobsQueued p (jobsQueued p + 1)).

(** [run] from [if (thread)] on, with the thread it obtained. *)
Definition run_resume (j : Job) (thr : option Thread) : act :=
  match thr with
  | Some t => postJob (Some t) j false
  | None => enqueue j
  end.

(** [run(jobName, jobData)] up to its first suspension. *)
Definition run (jn jd : string) (spawn : bool) : act := fun s =>
  let j := {| jobName := jn; jobData := jd; jid := length (promises s) |} in
  (modify (fun s => with_promises s (promises s ++ [Js.Pending])) >>>
   modify_pool (fun p => set_jobsRequested p (jobsRequested p + 1)) >>>
   (fun s =>
      if closed (pool s) then
        (emit (EConsole "warn" "pool is closed") >>> enqueue j) s
      else
        let '(thr, rest) := Js.shift (freeThreads (pool s)) in
        (modify_pool (fun p => set_freeThreads p rest) >>>
         match thr with
         | Some t => run_resume j (Some t)
         | None => threadAlloc spawn (WRun j)
         end) s)) s.

(** The [once('noJobsRunning')] listeners of [drain]: each clears its
    timer and resolves its promise with the pool. *)
Definition resolve_waiters (ws : list (nat * Z)) : act :=
  foldr (fun w a => resolve_call (fst w) This >>> a) ret ws.

(** [pool.emit('noJobsRunning')]. *)
Definition emit_noJobsRunning : act := fun s =>
  (emit (EEmit "noJobsRunning") >>>
   resolve_waiters (drainWaiters s) >>>
   modify (fun s => with_drainWaiters s [])) s.

(** The ['message'] handler that [postJob] registered on [t] for job [j]. *)
Definition onMessage (t : Thread) (j : Job) (r : value) : act :=
  (fun s =>
     match waitingJobs (pool s) with
     | j' :: rest =>
         (modify_pool (fun p => set_waitingJobs p rest) >>> postJob (Some t) j' true) s
     | [] => modify_pool (fun p => set_freeThreads p (freeThreads p ++ [Some t])) s
     end) >>>
  (fun s => if noJobsRunning (pool s) then emit_noJobsRunning s else ret s) >>>
  resolve_job (jid j) r.

(** The ['error'] listener of [postJob]: [reject].  The rejection is
    logged by [.catch(console.error)] and postJob's promise resolves with
    [undefined]; without [cb], [run] is awaiting it and passes that
    [undefined] to [resolve]. *)
Definition onError (j : Job) (cb : bool) : act :=
  emit (EConsole "error" "postJob.catch") >>>
  (if cb then ret else resolve_job (jid j) Undefined).

(** The [dequeue] sweep that the constructor schedules every 1.5 s. *)
Definition dequeue : act := fun s =>
  if (0 <? length (freeThreads (pool s)))%nat && (0 <? length (waitingJobs (pool s)))%nat then
    match waitingJobs (pool s) with
    | j :: rest =>
        let '(thr, frest) := Js.shift (freeThreads (pool s)) in
        (modify_pool (fun p => set_waitingJobs p rest) >>>
         modify_pool (fun p => set_freeThreads p frest) >>>
         postJob thr j true) s
    | [] => ret s
    end
  else ret s.

(** The loop of [startThreads] from iteration [i] to its next suspension;
    when the loop ends the call's promise resolves with the pool and, for
    the constructor's preload call, [totalThreads] is overwritten. *)
Definition startThreads_from (i : Z) (c : nat) (preload spawn : bool) : act := fun s =>
  if i <? minPoolSize (pool s) then startThread spawn (WStartThreads i c preload) s
  else (resolve_call c This >>>
        (if preload
         then modify_pool (fun p => set_totalThreads p (Z.of_nat (length (freeThreads p))))
         else ret)) s.

Definition startThreads_resume (i : Z) (c : nat) (preload : bool)
    (thr : option Thread) (spawn : bool) : act :=
  modify_pool (fun p => set_freeThreads p (freeThreads p ++ [thr])) >>>
  startThreads_from (i + 1) c preload spawn.

Definition startThreads (preload spawn : bool) : act := fun s =>
  let c := length (calls s) in
  (modify (fun s => with_calls s (calls s ++ [Js.Pending])) >>>
   startThreads_from 0 c preload spawn) s.

(** [drain] up to its suspension. *)
Definition drain : act := fun s =>
  let c := length (calls s) in
  (emit (EEmit "poolDrain") >>>
   (fun s =>
      if negb (closed (pool s)) then
        modify (fun s => with_calls s (calls s ++ [Js.Rejected "close pool first"])) s
      else if noJobsRunning (pool s) then
        modify (fun s => with_calls s
                  (calls s ++ [Js.catch_log Undef (Js.resolve This Js.Pending)])) s
      else
        (modify (fun s => with_calls s (calls s ++ [Js.Pending])) >>>
         modify (fun s => with_drainWaiters s (drainWaiters s ++ [(c, now s + 4000)]))) s)) s.

(** The 4 s timer of [drain] fires: [reject()], which
    [.catch(console.error)] logs and turns into [undefined]. *)
Definition drainTimeout (c : nat) : act :=
  modify (fun s =>
    with_calls s (alter (fun p => Js.catch_log Undef (Js.reject "" p)) c (calls s))) >>>
  emit (EConsole "error" "drain.catch").

(** [stopThreads] up to the point it returns. *)
Definition stopThreads : act := fun s =>
  let kill := freeThreads (pool s) in
  (modify_pool (fun p => set_freeThreads p []) >>>
   modify_pool (fun p => set_totalThreads p 0) >>>
   modify (fun s => with_stopping s (stopping s ++ [(now s + 1000, kill)]))) s.

(** [kill.map(thread => thread.stop())] in the timer of [stopThreads]; an
    [undefined] entry makes [thread.stop] throw, which ends the [map]. *)
Fixpoint killAll (l : list (option Thread)) : act :=
  match l with
  | [] => ret
  | Some t :: l' => kill t >>> killAll l'
  | None :: _ => emit (EUncaught "TypeError")
  end.

(** *** Transitions *)

Inductive label :=
| Tick (dt : Z)                              (* time passes *)
| Run (jn jd : string) (spawn : bool)        (* a caller invokes [pool.run] *)
| Resume (k : nat) (spawn : bool)            (* continuation [k] of [resuming] runs *)
| Ready (tid : nat)                          (* first message of a new Worker *)
| StartTimeout (tid : nat)                   (* 10 s timer of [newThread] *)
| Reply (tid : nat) (r : value)              (* a Worker answers its job *)
| WorkerError (tid : nat)                    (* a Worker emits 'error' *)
| Sweep                                      (* 1.5 s interval of the constructor *)
| Close
| Open
| Drain
| DrainTimeout (c : nat)                     (* 4 s timer of [drain] *)
| StopThreads
| KillTimer (k : nat)                        (* 1 s timer of [stopThreads] *)
| WorkerExit (tid : nat)                     (* a Worker sent 'shutdown' exits *)
| ForceTerminate (tid : nat)                 (* 5 s timer of [kill] *)
| StartThreads (preload spawn : bool).

Definition has_tid {B} (tid : nat) (e : Thread * B) : bool := Nat.eqb (id (fst e)) tid.

(** One transition; [None] when the label cannot happen in the state (no
    such handler, or a timer that is not due). *)
Definition step (l : label) (s : Sys) : option (Sys * list event) :=
  match l with
  | Tick dt => if 0 <? dt then Some (with_now s (now s + dt), []) else None
  | Run jn jd spawn => Some (run jn jd spawn s)
  | Resume k spawn =>
      match resuming s !! k with
      | Some (w, thr) =>
          let s1 := with_resuming s (delete k (resuming s)) in
          Some (match w with
                | WRun j => run_resume j thr s1
                | WStartThreads i c pre => startThreads_resume i c pre thr spawn s1
                end)
      | None => None
      end
  | Ready tid =>
      match extract (fun e => has_tid tid (fst e)) (starting s) with
      | Some ((t, w, _), rest) =>
          Some ((emit (EEmit "aegis-up") >>>
                 modify (fun s => with_resuming s (resuming s ++ [(w, Some t)])))
                  (with_starting s rest))
      | None => None
      end
  | StartTimeout tid =>
      match extract (fun e => has_tid tid (fst e)) (starting s) with
      | Some ((t, w, deadline), rest) =>
          if deadline <=? now s then
            Some ((emit (EConsole "error" "newThread.catch") >>>
                   modify (fun s => with_resuming s (resuming s ++ [(w, None)])))
                    (with_starting s rest))
          else None
      | None => None
      end
  | Reply tid r =>
      match extract (fun e => has_tid tid (fst e)) (busy s) with
      | Some ((t, j, _), rest) => Some (onMessage t j r (with_busy s rest))
      | None => None
      end
  | WorkerError tid =>
      match extract (fun e => has_tid tid (fst e)) (busy s) with
      | Some ((t, j, cb), rest) => Some (onError j cb (with_busy s rest))
      | None => None
      end
  | Sweep => Some (dequeue s)
  | Close => Some (with_pool s (close (pool s)), [])
  | Open => Some (with_pool s (open (pool s)), [])
  | Drain => Some (drain s)
  | DrainTimeout c =>
      match extract (fun w => Nat.eqb (fst w) c) (drainWaiters s) with
      | Some ((_, deadline), rest) =>
          if deadline <=? now s then Some (drainTimeout c (with_drainWaiters s rest))
          else None
      | None => None
      end
  | StopThreads => Some (stopThreads s)
  | KillTimer k =>
      match stopping s !! k with
      | Some (deadline, kl) =>
          if deadline <=? now s
          then Some (killAll kl (with_stopping s (delete k (stopping s))))
          else None
      | None => None
      end
  | WorkerExit tid =>
      match extract (has_tid tid) (dying s) with
      | Some (_, rest) => Some (emit (EConsole "info" "exiting") (with_dying s rest))
      | None => None
      end
  | ForceTerminate tid =>
      match extract (has_tid tid) (dying s) with
      | Some ((_, deadline), rest) =>
          if deadline <=? now s
          then Some ((emit (ETerminate tid) >>> emit (EConsole "warn" "terminated thread"))
                       (with_dying s rest))
          else None
      | None => None
      end
  | StartThreads preload spawn => Some (startThreads preload spawn s)
  end.

(** A schedule: labels run in order; the effects accumulate. *)
Fixpoint exec (ls : list label) (s : Sys) : option (Sys * list event) :=
  match ls with
  | [] => Some (s, [])
  | l :: ls' =>
      match step l s with
      | Some (s1, e1) =>
          match exec ls' s1 with
          | Some (s2, e2) => Some (s2, e1 ++ e2)
          | None => None
          end
      | None => None
      end
  end.

(** States the pool can be in: those that a schedule leads to from a
    freshly constructed pool. *)
Inductive reachable (p0 : ThreadPool) : Sys -> Prop :=
| reach_init : reachable p0 (init p0)
| reach_step s l s' ev : reachable p0 s -> step l s = Some (s', ev) -> reachable p0 s'.

(** * Properties *)

(** ** Generic lemmas on the list operations of the machine *)

Lemma extract_Some {A} (f : A -> bool) (l : list A) x r :
  extract f l = Some (x, r) ->
  exists l1 l2, l = l1 ++ x :: l2 /\ r = l1 ++ l2 /\ f x = true.
Proof.
  revert r. induction l as [|a l IH]; intros r H; simpl in H; [discriminate|].
  destruct (f a) eqn:Hf.
  - inversion H; subst. exists [], r. auto.
  - destruct (extract f l) as [[y r']|]; [|discriminate].
    inversion H; subst.
    destruct (IH r' eq_refl) as (l1 & l2 & -> & -> & Hx).
    exists (a :: l1), l2. auto.
Qed.

Lemma lookup_delete_split {A} (l : list A) k x :
  l !! k = Some x ->
  exists l1 l2, l = l1 ++ x :: l2 /\ delete k l = l1 ++ l2.
Proof.
  revert k. induction l as [|a l IH]; intros [|k] H; simpl in *; try discriminate.
  - inversion H; subst. exists [], l. auto.
  - destruct (IH k H) as (l1 & l2 & -> & Hd).
    exists (a :: l1), l2. simpl. rewrite Hd. auto.
Qed.

(** Reduces the action combinators applied to a state. *)
Ltac act_simpl :=
  cbn [andThen ret emit modify modify_pool fst snd app
       pool now nextThreadId promises calls starting resuming busy
       drainWaiters stopping dying
       with_pool with_now with_nextThreadId with_promises with_calls
       with_starting with_resuming with_busy with_drainWaiters
       with_stopping with_dying] in *.

Lemma with_calls_id s : with_calls s (calls s) = s.
Proof. by destruct s. Qed.

Lemma resolve_waiters_eq ws s :
  resolve_waiters ws s =
  (with_calls s (foldl (fun cl w => alter (Js.resolve This) (fst w) cl) (calls s) ws), []).
Proof.
  revert s. induction ws as [|w ws IH]; intros s; simpl.
  - unfold ret. by rewrite with_calls_id.
  - unfold andThen, resolve_call, modify. rewrite IH. reflexivity.
Qed.

Lemma killAll_eq l s :
  exists dy evs, killAll l s = (with_dying s (dying s ++ dy), evs).
Proof.
  revert s. induction l as [|[t|] l IH]; intros s; simpl.
  - exists [], []. unfold ret. rewrite app_nil_r. by destruct s.
  - unfold andThen, kill, emit, modify. simpl.
    destruct (IH (with_dying s (dying s ++ [(t, now s + 5000)]))) as (dy & evs & ->).
    simpl. eexists (_ :: dy), _. rewrite <- app_assoc. reflexivity.
  - exists [], [EUncaught "TypeError"]. unfold emit. rewrite app_nil_r. by destruct s.
Qed.


Ltac split_lists :=
  repeat match goal with
  | H : extract _ _ = Some _ |- _ =>
      apply extract_Some in H; destruct H as (? & ? & -> & -> & ?)
  | H : _ !! _ = Some _ |- _ =>
      let Hd := fresh "Hd" in
      apply lookup_delete_split in H; destruct H as (? & ? & -> & Hd);
      rewrite ?Hd in *
  end.




(** A schedule run from a fresh pool; the state is left as it is where the
    schedule cannot proceed. *)
Definition after (ls : list label) (p : ThreadPool) : Sys :=
  match exec ls (init p) with
  | Some (s, _) => s
  | None => init p
  end.

Lemma exec_reachable p ls : forall s s' ev,
  reachable p s -> exec ls s = Some (s', ev) -> reachable p s'.
Proof.
  induction ls as [|l ls IH]; intros s s' ev Hr He; simpl in He.
  - by simplify_eq.
  - destruct (step l s) as [[s1 e1]|] eqn:Hs; [|done].
    destruct (exec ls s1) as [[s2 e2]|] eqn:He2; [|done].
    simplify_eq. eapply IH; [|done]. by eapply reach_step.
Qed.

Lemma after_reachable p ls : reachable p (after ls p).
Proof.
  unfold after. destruct (exec ls (init p)) as [[s ev]|] eqn:He.
  - eapply exec_reachable; [apply reach_init | done].
  - apply reach_init.
Qed.

(** ** The queue rate (C8) *)

(** A [run] that is suspended on [threadAlloc] has been counted in
    [jobsRequested] and may still be counted in [jobsQueued]. *)
Definition is_run (w : waiter) : nat := match w with WRun _ => 1%nat | _ => 0%nat end.






(** On a new pool the rate is 0/0: [NaN], for which [rate > 100] is
    false. *)
Example jobQueueRate_initial nm jobs o :
  jobQueueRate (new_ThreadPool nm jobs o) = Js.NaN.
Proof. reflexivity. Qed.

(** Four submissions on a default pool (min 1, max 2, tolerance 25): the
    first starts a Worker, the second and third queue, the fourth starts
    the second Worker. *)
Definition elastic_growth : list label :=
  [Run "a" "1" true; Run "b" "2" true; Run "c" "3" true;
   Resume 0 true; Resume 0 true; Ready 1; Resume 0 true; Run "d" "4" true].



(** ** Growing the pool on submit (C1) *)

#[global] Instance value_eq_dec : EqDecision value.
Proof. solve_decision. Defined.
#[global] Instance event_eq_dec : EqDecision event.
Proof. solve_decision. Defined.

(** For [r > 0], [Math.round(100 q / r) > t] says that [100 q / r] is at
    least [t + 1/2]. *)
Lemma rate_gt_iff q r t :
  0 < r ->
  Js.gt (Js.round_percent q r) t = true <-> (2 * t + 1) * r <= 200 * q.
Proof.
  intros Hr. unfold Js.round_percent, Js.round_div.
  destruct (r =? 0) eqn:Er; [apply Z.eqb_eq in Er; lia|]. simpl.
  rewrite Z.ltb_lt. split; intros H.
  - assert (t + 1 <= (2 * (100 * q) + r) / (2 * r)) as H' by lia.
    assert (2 * r * ((2 * (100 * q) + r) / (2 * r)) <= 2 * (100 * q) + r)
      by (apply Z.mul_div_le; lia).
    nia.
  - assert (t + 1 <= (2 * (100 * q) + r) / (2 * r)); [|lia].
    apply Z.div_le_lower_bound; lia.
Qed.

(** The pool as [threadAlloc] sees it inside [run]: the submission has
    already been counted in [jobsRequested]. *)
Definition counted (p : ThreadPool) : ThreadPool :=
  set_jobsRequested p (jobsRequested p + 1).





Definition order_pool : ThreadPool := new_ThreadPool "ORDER" [] default_options.



(** With no thread at all the pool grows even when the rate equals the
    tolerance: after two jobs served, one queued while closed, and
    [stopThreads], the fourth submission sees 1 queued of 4 requested. *)
Definition stopped_with_quarter_queued : list label :=
  [Run "a" "1" true; Ready 1; Resume 0 true; Reply 1 (Result false "ok");
   Run "b" "2" true; Reply 1 (Result false "ok");
   Close; Run "c" "3" true; StopThreads; Open].

Example tie_with_no_thread_grows :
  jobQueueRate (counted (pool (after stopped_with_quarter_queued order_pool)))
    = Js.Num 25 /\
  queueTolerance (pool (after stopped_with_quarter_queued order_pool)) = 25 /\
  totalThreads (pool (after stopped_with_quarter_queued order_pool)) = 0 /\
  snd <$> step (Run "d" "4" true) (after stopped_with_quarter_queued order_pool)
    = Some [EStartThread; ENewWorker 2].
Proof. vm_compute. repeat split. Qed.

(** ** The promise that [run] returns (C2, C10) *)

Ltac unfold_acts_in H :=
  unfold run, dequeue, onMessage, onError, startThreads, startThreads_resume,
    drain, drainTimeout, stopThreads in H;
  unfold startThreads_from, threadAlloc, run_resume, emit_noJobsRunning in H;
  unfold startThread in H;
  unfold newThread, postJob, enqueue, kill, resolve_job, resolve_call,
    threadAlloc_grows, noJobsRunning, poolSize, maxPoolSize, minPoolSize,
    close, open in H;
  unfold andThen, ret, emit, modify, modify_pool in H.

Ltac step_paths s l Hs :=
  destruct s as [[] ? ? ? ? ? ? ? ? ? ?];
  destruct l; simpl in Hs; unfold_acts_in Hs; simpl in Hs;
  repeat first
    [ discriminate Hs
    | match type of Hs with
      | context [resolve_waiters ?ws ?s] => rewrite (resolve_waiters_eq ws s) in Hs
      | context [killAll ?l ?s] =>
          let Hk := fresh "Hk" in
          destruct (killAll_eq l s) as (? & ? & Hk); rewrite Hk in Hs; clear Hk
      | context [match ?x with _ => _ end] =>
          lazymatch x with
          | context [match _ with _ => _ end] => fail
          | _ => first [ is_var x; destruct x | destruct x eqn:? ]
          end
      end; simpl in Hs ];
  injection Hs as <- <-;
  split_lists.

Definition waiter_jid (w : waiter) : option nat :=
  match w with
  | WRun j => Some (jid j)
  | WStartThreads _ _ _ => None
  end.

Definition hit (j : nat) (o : option nat) : nat :=
  if decide (o = Some j) then 1%nat else 0%nat.

(** How many closures of the pool still hold the [resolve] of job [j]:
    waiting jobs, message handlers, suspended [run]s. *)
Definition holders (j : nat) (s : Sys) : nat :=
  (sum_list_with (fun x => hit j (Some (jid x))) (waitingJobs (pool s)) +
   sum_list_with (fun e => hit j (Some (jid (snd (fst e))))) (busy s) +
   sum_list_with (fun e => hit j (waiter_jid (fst e))) (resuming s) +
   sum_list_with (fun e => hit j (waiter_jid (snd (fst e)))) (starting s))%nat.

Definition jobs_ok (s : Sys) : Prop :=
  forall j, (holders j s <= 1)%nat /\
            ((1 <= holders j s)%nat -> promises s !! j = Some Js.Pending).

Lemma step_jobs_ok l s s' ev :
  jobs_ok s -> step l s = Some (s', ev) -> jobs_ok s'.
Proof.
  unfold jobs_ok, holders. intros H Hs j.
  step_paths s l Hs.
  all: pose proof (H j) as [Hj1 Hj2]; simpl in *.
  all: rewrite ?sum_list_with_app; rewrite ?sum_list_with_app in Hj1, Hj2; simpl in *.
  all: try (split; [lia | intros; apply Hj2; lia]).
  all: try match goal with
       | |- context [?pr ++ [Js.Pending]] =>
           let Hf := fresh "Hf" in
           pose proof (H (length pr)) as [_ Hf];
           rewrite (lookup_ge_None_2 pr (length pr)) in Hf by lia;
           rewrite ?sum_list_with_app in Hf; simpl in Hf;
           destruct (decide (j = length pr)) as [->|?];
           [ rewrite list_lookup_middle by done
           | ]
       | |- context [alter _ (jid ?j0) _] =>
           destruct (decide (j = jid j0)) as [->|?];
           [ | rewrite list_lookup_alter_ne by done ]
       end.
  all: repeat match goal with
       | Hf : ?X -> None = Some _ |- _ =>
           assert (~ X) by (let Hx := fresh in intros Hx; specialize (Hf Hx); discriminate);
           clear Hf
       end.
  all: unfold hit in *; repeat case_decide; simplify_eq.
  all: try (split; [lia | intros;
            first [done | apply Hj2; lia | apply lookup_app_l_Some, Hj2; lia | exfalso; lia]]).
Qed.

Lemma reachable_jobs_ok nm o s :
  reachable (new_ThreadPool nm [] o) s -> jobs_ok s.
Proof.
  induction 1 as [|s l s' ev _ IH Hs].
  - intros j. unfold holders. simpl. split; [lia|]. intros; lia.
  - by eapply step_jobs_ok.
Qed.

(** A message handler holds its job; in a reachable state that job's
    promise is therefore still pending. *)
Lemma busy_job_pending nm o s tid t j cb rest :
  reachable (new_ThreadPool nm [] o) s ->
  extract (fun e => has_tid tid (fst e)) (busy s) = Some ((t, j, cb), rest) ->
  promises s !! jid j = Some Js.Pending.
Proof.
  intros Hr He. apply reachable_jobs_ok in Hr.
  destruct (Hr (jid j)) as [_ Hp]. apply Hp.
  apply extract_Some in He as (l1 & l2 & Hb & _ & _).
  unfold holders. rewrite Hb, sum_list_with_app. simpl.
  unfold hit at 3. rewrite decide_True by done. lia.
Qed.

Definition not_rejected {A} (p : Js.pstate A) : Prop :=
  match p with
  | Js.Rejected _ => False
  | _ => True
  end.

Lemma resolve_not_rejected {A} (v : A) p :
  not_rejected p -> not_rejected (Js.resolve v p).
Proof. by destruct p. Qed.

Lemma Forall_alter_resolve {A} (v : A) i l :
  Forall not_rejected l -> Forall not_rejected (alter (Js.resolve v) i l).
Proof.
  intros H. apply Forall_alter; [done|].
  intros p _. apply resolve_not_rejected.
Qed.

Lemma step_never_rejects l s s' ev :
  Forall not_rejected (promises s) -> step l s = Some (s', ev) ->
  Forall not_rejected (promises s').
Proof.
  intros H Hs. step_paths s l Hs; simpl in *;
    auto using Forall_alter_resolve.
  all: apply Forall_app; split; [done | by repeat constructor].
Qed.


(** What the message handler of [postJob] does to the pool, whatever the
    reply is. *)
Lemma onMessage_spec t j r s :
  let s' := fst (onMessage t j r s) in
  promises s' = alter (Js.resolve r) (jid j) (promises s) /\
  totalThreads (pool s') = totalThreads (pool s) /\
  closed (pool s') = closed (pool s) /\
  match waitingJobs (pool s) with
  | [] =>
      freeThreads (pool s') = freeThreads (pool s) ++ [Some t] /\
      waitingJobs (pool s') = [] /\
      busy s' = busy s
  | j' :: w =>
      freeThreads (pool s') = freeThreads (pool s) /\
      waitingJobs (pool s') = w /\
      busy s' = busy s ++ [(t, j', true)]
  end.
Proof.
  destruct s as [[] ? ? ? ? ? ? ? ? ? ?].
  unfold onMessage, emit_noJobsRunning, postJob, resolve_job, noJobsRunning,
    andThen, modify_pool, modify, emit, ret. simpl.
  destruct waitingJobs0 as [|j' w]; simpl;
    match goal with |- context [if ?b then _ else _] => destruct b end;
    rewrite ?resolve_waiters_eq; simpl; repeat split.
Qed.

(** C2 (amended).  When the Worker of a busy Thread replies with an error
    Result, the promise that [run] returned for the job is resolved with
    that error Result, not rejected.  The pool stays in service: the
    Thread is handed the next waiting job, or pushed on [freeThreads] when
    none waits, [totalThreads] and [closed] are unchanged, and [run] still
    accepts submissions. *)
Theorem error_reply_resolves_promise nm o s tid t j cb rest msg :
  reachable (new_ThreadPool nm [] o) s ->
  extract (fun e => has_tid tid (fst e)) (busy s) = Some ((t, j, cb), rest) ->
  exists s' ev,
    step (Reply tid (Result true msg)) s = Some (s', ev) /\
    promises s' !! jid j = Some (Js.Resolved (Result true msg)) /\
    match waitingJobs (pool s) with
    | [] =>
        freeThreads (pool s') = freeThreads (pool s) ++ [Some t] /\
        waitingJobs (pool s') = [] /\
        busy s' = rest
    | j' :: w =>
        freeThreads (pool s') = freeThreads (pool s) /\
        waitingJobs (pool s') = w /\
        busy s' = rest ++ [(t, j', true)]
    end /\
    totalThreads (pool s') = totalThreads (pool s) /\
    closed (pool s') = closed (pool s) /\
    forall jn jd spawn, is_Some (step (Run jn jd spawn) s').
Proof.
  intros Hr He.
  pose proof (busy_job_pending _ _ _ _ _ _ _ _ Hr He) as Hp.
  unfold step at 1. rewrite He.
  destruct (onMessage t j (Result true msg) (with_busy s rest)) as [s' ev] eqn:Hm.
  exists s', ev. split; [done|].
  pose proof (onMessage_spec t j (Result true msg) (with_busy s rest)) as Hspec.
  rewrite Hm in Hspec. simpl in Hspec.
  destruct Hspec as (Hpr & Htt & Hcl & Hw).
  split; [|split; [done|split; [done|split; [done|]]]].
  - rewrite Hpr, list_lookup_alter_eq, Hp. done.
  - intros jn jd spawn. simpl. eauto.
Qed.

Lemma error_reply_resolves_promise_witness :
  reachable order_pool
    (after [Run "addItem" "1" true; Ready 1; Resume 0 true] order_pool) /\
  extract (fun e => has_tid 1 (fst e))
    (busy (after [Run "addItem" "1" true; Ready 1; Resume 0 true] order_pool))
  = Some (({| id := 1; createdAt := 0 |},
           {| jobName := "addItem"; jobData := "1"; jid := 0 |}, false), []) /\
  exists s' ev,
    step (Reply 1 (Result true "boom"))
      (after [Run "addItem" "1" true; Ready 1; Resume 0 true] order_pool)
    = Some (s', ev) /\
    promises s' !! 0%nat = Some (Js.Resolved (Result true "boom")).
Proof.
  assert (H1 : reachable order_pool
            (after [Run "addItem" "1" true; Ready 1; Resume 0 true] order_pool))
    by apply after_reachable.
  assert (H2 : extract (fun e => has_tid 1 (fst e))
            (busy (after [Run "addItem" "1" true; Ready 1; Resume 0 true] order_pool))
          = Some (({| id := 1; createdAt := 0 |},
                   {| jobName := "addItem"; jobData := "1"; jid := 0 |}, false), []))
    by (vm_compute; reflexivity).
  split; [exact H1|]. split; [exact H2|].
  destruct (error_reply_resolves_promise "ORDER" default_options _ _ _ _ _ _ "boom" H1 H2)
    as (s' & ev & Hs & Hp & _).
  exists s', ev. split; [exact Hs | exact Hp].
Defined.

(** One job on a new pool, answered with an error Result. *)
Definition failing_job : list label :=
  [Run "addItem" "1" true; Ready 1; Resume 0 true; Reply 1 (Result true "boom")].

(** C2 as stated fails: after the Worker's error reply the promise of
    the job is resolved with the error Result; it is not rejected. *)
Lemma error_reply_is_not_a_rejection :
  promises (after failing_job order_pool) !! 0%nat
    = Some (Js.Resolved (Result true "boom")) /\
  ~ (exists e, promises (after failing_job order_pool) !! 0%nat
                 = Some (Js.Rejected e)).
Proof.
  assert (H : promises (after failing_job order_pool) !! 0%nat
              = Some (Js.Resolved (Result true "boom")))
    by (vm_compute; reflexivity).
  split; [exact H|]. intros [e He]. rewrite H in He. discriminate.
Qed.

(** C10.  In every state that a schedule leads to from a new pool, each
    promise that [run] has returned is pending or resolved with a value:
    none is ever rejected, whatever the workers reply and whichever of
    them fail to start or emit an error. *)
Theorem run_promise_never_rejected nm jobs o s j p :
  reachable (new_ThreadPool nm jobs o) s ->
  promises s !! j = Some p ->
  p = Js.Pending \/ exists v, p = Js.Resolved v.
Proof.
  intros Hr Hp.
  assert (Hall : Forall not_rejected (promises s)).
  { clear Hp. induction Hr as [|s l s' ev _ IH Hs]; [constructor|].
    by eapply step_never_rejects. }
  rewrite Forall_lookup in Hall. specialize (Hall _ _ Hp).
  destruct p; simpl in Hall; [by left | right; eauto | done].
Qed.

(** A job whose Worker emits 'error', and a job queued behind it whose
    Worker does the same. *)
Definition worker_errors : list label :=
  [Run "a" "1" true; Run "b" "2" true; Resume 0 true; Ready 1; Resume 0 true;
   Reply 1 (Result false "ok"); WorkerError 1].

Lemma run_promise_never_rejected_witness :
  reachable order_pool (after worker_errors order_pool) /\
  promises (after worker_errors order_pool) !! 1%nat = Some Js.Pending /\
  ((Js.Pending : Js.pstate value) = Js.Pending \/
   exists v : value, Js.Pending = Js.Resolved v).
Proof.
  assert (H1 : reachable order_pool (after worker_errors order_pool))
    by apply after_reachable.
  assert (H2 : promises (after worker_errors order_pool) !! 1%nat = Some Js.Pending)
    by (vm_compute; reflexivity).
  split; [exact H1|]. split; [exact H2|].
  exact (run_promise_never_rejected "ORDER" [] default_options _ _ _ H1 H2).
Defined.

(** The paths of the claim, one by one.  A Worker 'error' on a job that
    was posted directly resolves the promise with [undefined]. *)
Example worker_error_direct :
  promises (after [Run "a" "1" true; Ready 1; Resume 0 true; WorkerError 1]
              order_pool)
  = [Js.Resolved Undefined].
Proof. vm_compute. reflexivity. Qed.

(** On a job that had been queued it settles nothing: that promise
    stays pending and no closure of the pool holds its [resolve]. *)
Example worker_error_queued :
  promises (after worker_errors order_pool)
    = [Js.Resolved (Result false "ok"); Js.Pending] /\
  holders 1 (after worker_errors order_pool) = 0%nat.
Proof. vm_compute. split; reflexivity. Qed.

(** A promise that no closure holds is never settled. *)
Lemma no_holder_no_change l s s' ev j :
  holders j s = 0%nat -> (j < length (promises s))%nat ->
  step l s = Some (s', ev) ->
  holders j s' = 0%nat /\ promises s' !! j = promises s !! j /\
  (j < length (promises s'))%nat.
Proof.
  unfold holders. intros H Hj Hs.
  step_paths s l Hs; simpl in *.
  all: rewrite ?sum_list_with_app in *; simpl in *.
  all: rewrite ?length_app, ?length_alter; simpl.
  all: unfold hit in *; repeat case_decide; simplify_eq.
  all: try (split; [lia | split; [|lia]]).
  all: try done.
  all: try (by rewrite lookup_app_l by lia).
  all: try (exfalso; lia).
  all: rewrite list_lookup_alter_ne; [done | congruence].
Qed.

Lemma abandoned_promise_stays_pending ls : forall s s' ev j,
  holders j s = 0%nat -> promises s !! j = Some Js.Pending ->
  exec ls s = Some (s', ev) ->
  promises s' !! j = Some Js.Pending.
Proof.
  induction ls as [|l ls IH]; intros s s' ev j H0 Hp He; simpl in He.
  - by simplify_eq.
  - destruct (step l s) as [[s1 e1]|] eqn:Hs; [|done].
    destruct (exec ls s1) as [[s2 e2]|] eqn:He2; [|done]. simplify_eq.
    assert (Hj : (j < length (promises s))%nat) by (by eapply lookup_lt_Some).
    destruct (no_holder_no_change _ _ _ _ _ H0 Hj Hs) as (H0' & Hp' & _).
    eapply IH; [exact H0' | by rewrite Hp' | exact He2].
Qed.

(** ** Draining (C3) *)















(** A pool that is closed while its only Thread runs a job. *)
Definition closed_while_busy : list label :=
  [Run "a" "1" true; Ready 1; Resume 0 true; Close].



(** ** Starting and stopping Threads (C6, C7) *)

(** Worker ids handed out so far are below [nextThreadId]. *)
Definition ids_fresh (s : Sys) : Prop :=
  forall e, e ∈ starting s -> (id (fst (fst e)) < nextThreadId s)%nat.

Lemma step_ids_fresh l s s' ev :
  ids_fresh s -> step l s = Some (s', ev) -> ids_fresh s'.
Proof.
  unfold ids_fresh. intros Hf Hs.
  step_paths s l Hs; simpl in *; intros e.
  all: rewrite ?elem_of_app, ?elem_of_cons, ?elem_of_nil.
  all: try (intros Hin; specialize (Hf e);
            rewrite ?elem_of_app, ?elem_of_cons in Hf; tauto).
  all: intros [Hin|[->|[]]]; [apply Hf in Hin; lia | simpl; lia].
Qed.

Lemma reachable_ids_fresh p s : reachable p s -> ids_fresh s.
Proof.
  induction 1 as [|s l s' ev _ IH Hs].
  - intros e Hin. by apply elem_of_nil in Hin.
  - by eapply step_ids_fresh.
Qed.

Lemma extract_snoc {A} (f : A -> bool) (l : list A) y :
  (forall x, x ∈ l -> f x = false) -> f y = true ->
  extract f (l ++ [y]) = Some (y, l).
Proof.
  induction l as [|a l IH]; intros Hl Hy; simpl.
  - by rewrite Hy.
  - rewrite (Hl a) by left. rewrite IH; [done| |done].
    intros x Hx. apply Hl. by right.
Qed.

Lemma delete_snoc {A} (l : list A) y : delete (length l) (l ++ [y]) = l.
Proof. induction l as [|a l IH]; simpl; [done|]. by rewrite IH. Qed.

(** The schedule in which each of [n] new Workers, numbered from [tid],
    sends its first message and the loop of [startThreads], continuation
    [k], goes on at once. *)
Fixpoint handshakes (tid k n : nat) : list label :=
  match n with
  | O => []
  | S n' => Ready tid :: Resume k true :: handshakes (S tid) k n'
  end.

(** The Threads that schedule creates. *)
Fixpoint new_threads (tid : nat) (t0 : Z) (n : nat) : list (option Thread) :=
  match n with
  | O => []
  | S n' => Some {| id := tid; createdAt := t0 |} :: new_threads (S tid) t0 n'
  end.

(** How many times [startThread] was called. *)
Fixpoint count_starts (ev : list event) : nat :=
  match ev with
  | [] => 0
  | EStartThread :: ev' => S (count_starts ev')
  | _ :: ev' => count_starts ev'
  end.

Lemma step_Ready_last s st t w dl :
  starting s = st ++ [(t, w, dl)] ->
  (forall e, e ∈ st -> id (fst (fst e)) <> id t) ->
  step (Ready (id t)) s
  = Some (with_resuming (with_starting s st) (resuming s ++ [(w, Some t)]),
          [EEmit "aegis-up"]).
Proof.
  intros Hst Hne. simpl. rewrite Hst.
  rewrite extract_snoc.
  - reflexivity.
  - intros [[t' w'] d'] Hin. unfold has_tid. simpl.
    apply Nat.eqb_neq. by apply (Hne _ Hin).
  - unfold has_tid. simpl. apply Nat.eqb_refl.
Qed.

Lemma step_Resume_last s rs w thr sp :
  resuming s = rs ++ [(w, thr)] ->
  step (Resume (length rs) sp) s
  = Some (match w with
          | WRun j => run_resume j thr
          | WStartThreads i c pre => startThreads_resume i c pre thr sp
          end (with_resuming s rs)).
Proof.
  intros Hrs. simpl. rewrite Hrs.
  rewrite list_lookup_middle by done. rewrite delete_snoc. by destruct w.
Qed.

Lemma startThreads_loop n : forall s i c,
  ids_fresh s ->
  Z.of_nat n = Z.max 0 (minThreads (pool s) - i) ->
  exists s' ev,
    (let '(s1, e1) := startThreads_from i c false true s in
     match exec (handshakes (nextThreadId s) (length (resuming s)) n) s1 with
     | Some (s2, e2) => Some (s2, e1 ++ e2)
     | None => None
     end) = Some (s', ev) /\
    freeThreads (pool s') = freeThreads (pool s) ++ new_threads (nextThreadId s) (now s) n /\
    totalThreads (pool s') = totalThreads (pool s) + Z.of_nat n /\
    calls s' = alter (Js.resolve This) c (calls s) /\
    count_starts ev = n.
Proof.
  induction n as [|n IH]; intros s i c Hf Hn.
  - unfold startThreads_from, minPoolSize.
    destruct (i <? minThreads (pool s)) eqn:E; [apply Z.ltb_lt in E; lia|].
    destruct s as [[] ? ? ? ? ? ? ? ? ? ?].
    unfold andThen, resolve_call, modify, ret. simpl.
    eexists _, _. split; [reflexivity|]. simpl.
    rewrite app_nil_r. repeat split; lia.
  - unfold startThreads_from, minPoolSize.
    destruct (i <? minThreads (pool s)) eqn:E; [|apply Z.ltb_ge in E; lia].
    apply Z.ltb_lt in E.
    destruct s as [[] ? ? ? ? ? ? ? ? ? ?].
    unfold ids_fresh in Hf. simpl in Hf, Hn, E.
    unfold startThread, newThread, andThen, emit, modify, modify_pool. simpl.
    rewrite extract_snoc;
      [|intros [[t' w'] d'] Hin; apply Hf in Hin; unfold has_tid; simpl in *;
        apply Nat.eqb_neq; lia
       |unfold has_tid; simpl; apply Nat.eqb_refl].
    unfold andThen, emit, modify. simpl.
    rewrite list_lookup_middle by done. rewrite delete_snoc.
    unfold startThreads_resume, andThen, modify_pool. simpl.
    match goal with
    | |- context [startThreads_from (i + 1) c false true ?s2] =>
        destruct (IH s2 (i + 1) c) as (s' & ev & Hex & Hfr & Htt & Hcl & Hcn)
    end.
    { intros e Hin. simpl in *. apply Hf in Hin. lia. }
    { simpl. lia. }
    simpl in Hex, Hfr, Htt, Hcl.
    destruct (startThreads_from (i + 1) c false true _) as [s3 e3] eqn:H3.
    destruct (exec _ s3) as [[s4 e4]|] eqn:H4; [|done].
    injection Hex as -> <-.
    eexists _, _. split; [reflexivity|].
    split; [rewrite Hfr, <- app_assoc; reflexivity|].
    split; [rewrite Htt; lia|]. split; [done|].
    simpl. by rewrite Hcn.
Qed.

Lemma alter_snoc_pending (cl : list (Js.pstate retval)) :
  alter (Js.resolve This) (length cl) (cl ++ [Js.Pending]) = cl ++ [Js.Resolved This].
Proof. induction cl as [|a cl IH]; simpl; [done|]. by rewrite <- IH. Qed.

(** X1.  [startThreads] makes no check for Threads that exist: from any
    reachable state it calls [startThread] [minThreads] times, one Worker
    after the other; when each Worker sends its first message the new
    Threads are appended to [freeThreads] in order of creation,
    [totalThreads] grows by [minThreads], and the promise of the call
    resolves with the pool. *)
Theorem startThreads_adds_minThreads p s :
  reachable p s ->
  exists s' ev,
    exec (StartThreads false true ::
          handshakes (nextThreadId s) (length (resuming s))
            (Z.to_nat (minThreads (pool s)))) s = Some (s', ev) /\
    freeThreads (pool s')
      = freeThreads (pool s) ++
        new_threads (nextThreadId s) (now s) (Z.to_nat (minThreads (pool s))) /\
    totalThreads (pool s')
      = totalThreads (pool s) + Z.of_nat (Z.to_nat (minThreads (pool s))) /\
    calls s' = calls s ++ [Js.Resolved This] /\
    count_starts ev = Z.to_nat (minThreads (pool s)).
Proof.
  intros Hr. apply reachable_ids_fresh in Hr.
  destruct (startThreads_loop (Z.to_nat (minThreads (pool s)))
              (with_calls s (calls s ++ [Js.Pending])) 0 (length (calls s)))
    as (s' & ev & Hex & Hfr & Htt & Hcl & Hcn).
  { intros e Hin. apply Hr in Hin. exact Hin. }
  { simpl. lia. }
  simpl in Hex, Hfr, Htt, Hcl. rewrite alter_snoc_pending in Hcl.
  exists s', ev. split; [|done].
  cbn [exec step]. unfold startThreads, andThen, modify.
  destruct (startThreads_from 0 _ false true _) as [s1 e1].
  destruct (exec _ s1) as [[s2 e2]|]; [|done].
  by injection Hex as -> <-.
Qed.

(** A pool whose only Thread has served a job and is free again. *)
Definition one_free_thread : list label :=
  [Run "a" "1" true; Ready 1; Resume 0 true; Reply 1 (Result false "ok")].

Lemma startThreads_adds_minThreads_witness :
  reachable order_pool (after one_free_thread order_pool) /\
  exists s' ev,
    exec [StartThreads false true; Ready 2; Resume 0 true]
      (after one_free_thread order_pool) = Some (s', ev) /\
    freeThreads (pool s')
      = [Some {| id := 1; createdAt := 0 |}; Some {| id := 2; createdAt := 0 |}] /\
    totalThreads (pool s') = 2.
Proof.
  assert (H1 : reachable order_pool (after one_free_thread order_pool))
    by apply after_reachable.
  split; [exact H1|].
  destruct (startThreads_adds_minThreads _ _ H1) as (s' & ev & Hex & Hfr & Htt & _).
  exists s', ev. split; [exact Hex|]. split; [exact Hfr | exact Htt].
Defined.

(** What [kill] does for each Thread of a list: a log line and the
    'shutdown' message. *)
Definition shutdown_messages (ts : list Thread) : list event :=
  flat_map (fun t => [EConsole "info" "killing thread";
                      EPostMessage (id t) "shutdown" ""]) ts.

Lemma killAll_defined ts : forall s,
  killAll (Some <$> ts) s
  = (with_dying s (dying s ++ map (fun t => (t, now s + 5000)) ts),
     shutdown_messages ts).
Proof.
  induction ts as [|t ts IH]; intros s.
  - simpl. unfold ret. rewrite app_nil_r. by destruct s.
  - cbn [fmap list_fmap killAll]. unfold andThen, kill, emit, modify. simpl.
    change (list_fmap Thread (option Thread) Some ts) with (Some <$> ts).
    rewrite IH. simpl. rewrite <- app_assoc. reflexivity.
Qed.

(** X2.  [stopThreads] takes every entry off the free stack and zeroes
    [totalThreads] at once, touching neither the Threads that are running
    a job nor any Worker; the Workers are sent 'shutdown' by a timer that
    cannot fire earlier than 1000 ms later, each in the order of the
    stack. *)
Theorem stopThreads_removes_then_kills s ts dt :
  freeThreads (pool s) = Some <$> ts ->
  exists s1,
    step StopThreads s = Some (s1, []) /\
    freeThreads (pool s1) = [] /\
    totalThreads (pool s1) = 0 /\
    busy s1 = busy s /\
    dying s1 = dying s /\
    step (KillTimer (length (stopping s))) s1 = None /\
    (0 < dt < 1000 ->
       exec [Tick dt; KillTimer (length (stopping s))] s1 = None) /\
    (1000 <= dt ->
       exists s2,
         exec [Tick dt; KillTimer (length (stopping s))] s1
           = Some (s2, shutdown_messages ts) /\
         dying s2 = dying s ++ map (fun t => (t, now s + dt + 5000)) ts /\
         stopping s2 = stopping s).
Proof.
  intros Hfree.
  destruct s as [[] ? ? ? ? ? ? ? ? ? ?]. simpl in *. subst.
  unfold stopThreads, andThen, modify, modify_pool. simpl.
  eexists. split; [reflexivity|]. simpl.
  rewrite list_lookup_middle by done.
  assert (Hnow : (now0 + 1000 <=? now0) = false) by (apply Z.leb_gt; lia).
  rewrite Hnow.
  repeat split.
  - intros [H0 H1].
    destruct (0 <? dt) eqn:E; [|apply Z.ltb_ge in E; lia]. simpl.
    rewrite list_lookup_middle by done.
    destruct (now0 + 1000 <=? now0 + dt) eqn:E2; [apply Z.leb_le in E2; lia|done].
  - intros Hdt.
    destruct (0 <? dt) eqn:E; [|apply Z.ltb_ge in E; lia]. simpl.
    rewrite list_lookup_middle by done.
    destruct (now0 + 1000 <=? now0 + dt) eqn:E2; [|apply Z.leb_gt in E2; lia].
    rewrite delete_snoc, killAll_defined. simpl.
    eexists. split; [by rewrite app_nil_r|]. simpl. done.
Qed.

Lemma stopThreads_removes_then_kills_witness :
  freeThreads (pool (after one_free_thread order_pool))
    = Some <$> [{| id := 1; createdAt := 0 |}] /\
  exists s1,
    step StopThreads (after one_free_thread order_pool) = Some (s1, []) /\
    freeThreads (pool s1) = [] /\ totalThreads (pool s1) = 0.
Proof.
  assert (H1 : freeThreads (pool (after one_free_thread order_pool))
               = Some <$> [{| id := 1; createdAt := 0 |}])
    by (vm_compute; reflexivity).
  split; [exact H1|].
  destruct (stopThreads_removes_then_kills _ _ 1000 H1)
    as (s1 & Hs & Hf & Ht & _).
  exists s1. split; [exact Hs|]. split; [exact Hf | exact Ht].
Defined.

(** X3.  An [undefined] entry on the free stack, left by a start that failed,
    ends the [map] of the timer with a TypeError: the Threads before it
    are sent 'shutdown', those after it never are. *)
Theorem killAll_stops_at_undefined ts rest s :
  killAll ((Some <$> ts) ++ None :: rest) s
  = (with_dying s (dying s ++ map (fun t => (t, now s + 5000)) ts),
     shutdown_messages ts ++ [EUncaught "TypeError"]).
Proof.
  revert s. induction ts as [|t ts IH]; intros s.
  - simpl. unfold emit. rewrite app_nil_r. by destruct s.
  - cbn [fmap list_fmap app killAll]. unfold andThen, kill, emit, modify. simpl.
    change (list_fmap Thread (option Thread) Some ts) with (Some <$> ts).
    rewrite IH. simpl. rewrite <- app_assoc. reflexivity.
Qed.



(** ** Further properties of the pool *)



(** The calls of [run] in a schedule. *)
Fixpoint count_runs (ls : list label) : nat :=
  match ls with
  | [] => 0
  | Run _ _ _ :: ls' => S (count_runs ls')
  | _ :: ls' => count_runs ls'
  end.

Lemma step_counts_run l s s' ev :
  step l s = Some (s', ev) ->
  jobsRequested (pool s') = jobsRequested (pool s) + Z.of_nat (count_runs [l]) /\
  length (promises s') = (length (promises s) + count_runs [l])%nat.
Proof.
  intros Hs. step_paths s l Hs; simpl.
  all: rewrite ?length_alter, ?length_app; simpl; split; lia.
Qed.

(** X6.  Every call of [run], and nothing else, is counted in [jobsRequested]
    and is given one promise: [totalTransactions()] is the number of
    submissions, whether they were served, queued or lost. *)
Theorem jobsRequested_counts_runs ls : forall s s' ev,
  exec ls s = Some (s', ev) ->
  jobsRequested (pool s') = jobsRequested (pool s) + Z.of_nat (count_runs ls) /\
  length (promises s') = (length (promises s) + count_runs ls)%nat.
Proof.
  induction ls as [|l ls IH]; intros s s' ev He; simpl in He.
  - simplify_eq. simpl. lia.
  - destruct (step l s) as [[s1 e1]|] eqn:Hs; [|done].
    destruct (exec ls s1) as [[s2 e2]|] eqn:He2; [|done]. simplify_eq.
    apply step_counts_run in Hs as [Hs1 Hs2].
    apply IH in He2 as [He1 He3].
    rewrite He1, He3, Hs1, Hs2.
    destruct l; simpl; lia.
Qed.

Lemma jobsRequested_counts_runs_witness :
  exec elastic_growth (init order_pool)
    = Some (after elastic_growth order_pool,
            [EStartThread; ENewWorker 1;
             EConsole "debug" "no threads: queue job";
             EConsole "debug" "no threads: queue job";
             EEmit "aegis-up"; EPostMessage 1 "a" "1";
             EStartThread; ENewWorker 2]) /\
  jobsRequested (pool (after elastic_growth order_pool)) = 4.
Proof.
  assert (H1 : exec elastic_growth (init order_pool)
               = Some (after elastic_growth order_pool,
                       [EStartThread; ENewWorker 1;
                        EConsole "debug" "no threads: queue job";
                        EConsole "debug" "no threads: queue job";
                        EEmit "aegis-up"; EPostMessage 1 "a" "1";
                        EStartThread; ENewWorker 2]))
    by (vm_compute; reflexivity).
  split; [exact H1|].
  exact (proj1 (jobsRequested_counts_runs _ _ _ _ H1)).
Defined.








Definition is_StartThreads (l : label) : bool :=
  match l with
  | StartThreads _ _ => true
  | _ => false
  end.

Definition loop_waiters (s : Sys) : nat :=
  (sum_list_with (fun e => 1 - is_run (fst e)) (resuming s) +
   sum_list_with (fun e => 1 - is_run (snd (fst e))) (starting s))%nat.

Definition grown_by_run (s : Sys) : Prop :=
  loop_waiters s = 0%nat /\
  0 <= totalThreads (pool s) <= Z.max 1 (maxThreads (pool s)).

Lemma step_grown_by_run l s s' ev :
  is_StartThreads l = false ->
  grown_by_run s -> step l s = Some (s', ev) ->
  grown_by_run s' /\ maxThreads (pool s') = maxThreads (pool s).
Proof.
  unfold grown_by_run, loop_waiters. intros Hl [H0 H1] Hs.
  step_paths s l Hs; simpl in *; try discriminate.
  all: rewrite ?sum_list_with_app in *; simpl in *.
  all: try (repeat split; lia).
  all: repeat match goal with
       | H : (_ || _) = _ |- _ =>
           first [ apply orb_true_iff in H | apply orb_false_iff in H ]
       | H : (_ && _) = true |- _ => apply andb_true_iff in H
       | H : _ /\ _ |- _ => destruct H
       | H : _ \/ _ |- _ => destruct H
       | H : (_ =? _) = true |- _ => apply Z.eqb_eq in H
       | H : (_ <? _) = true |- _ => apply Z.ltb_lt in H
       end.
  all: try (repeat split; lia).
Qed.

(** X8.  Submissions alone never grow the pool beyond [maxThreads] (beyond one
    Thread when [maxThreads] is below 1): as long as [startThreads] is not
    called, [totalThreads] stays within that bound. *)
Theorem run_never_exceeds_maxThreads ls : forall nm jobs o s ev,
  forallb (fun l => negb (is_StartThreads l)) ls = true ->
  exec ls (init (new_ThreadPool nm jobs o)) = Some (s, ev) ->
  0 <= totalThreads (pool s) <= Z.max 1 (maxThreads (new_ThreadPool nm jobs o)).
Proof.
  intros nm jobs o.
  assert (Hgen : forall s0 s ev,
            forallb (fun l => negb (is_StartThreads l)) ls = true ->
            grown_by_run s0 -> exec ls s0 = Some (s, ev) ->
            grown_by_run s /\ maxThreads (pool s) = maxThreads (pool s0)).
  { induction ls as [|l ls IH]; intros s0 s ev Hall Hg He; simpl in *.
    - by simplify_eq.
    - apply andb_true_iff in Hall as [Hl Hall]. apply negb_true_iff in Hl.
      destruct (step l s0) as [[s1 e1]|] eqn:Hs; [|done].
      destruct (exec ls s1) as [[s2 e2]|] eqn:He2; [|done]. simplify_eq.
      destruct (step_grown_by_run _ _ _ _ Hl Hg Hs) as [Hg1 Hm1].
      destruct (IH _ _ _ Hall Hg1 He2) as [Hg2 Hm2].
      split; [done|congruence]. }
  intros s ev Hall He.
  destruct (Hgen (init (new_ThreadPool nm jobs o)) s ev Hall) as [[_ Hb] Hm]; [|done|].
  - unfold grown_by_run, loop_waiters. simpl. lia.
  - rewrite Hm in Hb. exact Hb.
Qed.

(** The effects of a schedule run from a fresh pool. *)
Definition trace (ls : list label) (p : ThreadPool) : list event :=
  match exec ls (init p) with
  | Some (_, ev) => ev
  | None => []
  end.

(** Eight submissions on a default pool, with both Workers coming up. *)
Definition burst : list label :=
  [Run "a" "1" true; Run "b" "2" true; Run "c" "3" true; Run "d" "4" true;
   Resume 0 true; Resume 0 true; Resume 0 true; Ready 1; Resume 0 true;
   Run "e" "5" true; Run "f" "6" true; Resume 0 true; Ready 2; Resume 0 true;
   Run "g" "7" true; Run "h" "8" true; Resume 0 true; Resume 0 true].

Lemma run_never_exceeds_maxThreads_witness :
  forallb (fun l => negb (is_StartThreads l)) burst = true /\
  exec burst (init order_pool)
    = Some (after burst order_pool, trace burst order_pool) /\
  0 <= totalThreads (pool (after burst order_pool)) <= 2.
Proof.
  assert (H1 : forallb (fun l => negb (is_StartThreads l)) burst = true)
    by (vm_compute; reflexivity).
  assert (H2 : exec burst (init order_pool)
               = Some (after burst order_pool, trace burst order_pool))
    by (vm_compute; reflexivity).
  split; [exact H1|]. split; [exact H2|].
  exact (run_never_exceeds_maxThreads _ "ORDER" [] default_options _ _ H1 H2).
Defined.

Example burst_grows_to_two :
  totalThreads (pool (after burst order_pool)) = 2 /\
  jobsQueued (pool (after burst order_pool)) = 6 /\
  length (busy (after burst order_pool)) = 2%nat.
Proof. vm_compute. repeat split. Qed.

(** On a closed pool [run] starts and posts nothing: it warns, puts the
    job at the end of [waitingJobs] and counts it as requested and as
    queued, whatever Threads are free. *)
Theorem run_on_closed_pool_queues s jn jd spawn :
  closed (pool s) = true ->
  exists s',
    step (Run jn jd spawn) s
      = Some (s', [EConsole "warn" "pool is closed";
                   EConsole "debug" "no threads: queue job"]) /\
    waitingJobs (pool s')
      = waitingJobs (pool s) ++
        [{| jobName := jn; jobData := jd; jid := length (promises s) |}] /\
    jobsRequested (pool s') = jobsRequested (pool s) + 1 /\
    jobsQueued (pool s') = jobsQueued (pool s) + 1 /\
    freeThreads (pool s') = freeThreads (pool s) /\
    totalThreads (pool s') = totalThreads (pool s) /\
    busy s' = busy s /\ starting s' = starting s /\
    promises s' = promises s ++ [Js.Pending].
Proof.
  intros Hc. destruct s as [[] ? ? ? ? ? ? ? ? ? ?]. simpl in *. subst.
  unfold run, enqueue, andThen, emit, modify, modify_pool. simpl.
  eexists. split; [reflexivity|]. simpl. repeat split.
Qed.

Lemma run_on_closed_pool_queues_witness :
  closed (pool (after closed_while_busy order_pool)) = true /\
  exists s',
    step (Run "b" "2" true) (after closed_while_busy order_pool)
      = Some (s', [EConsole "warn" "pool is closed";
                   EConsole "debug" "no threads: queue job"]).
Proof.
  assert (H1 : closed (pool (after closed_while_busy order_pool)) = true)
    by (vm_compute; reflexivity).
  split; [exact H1|].
  destruct (run_on_closed_pool_queues _ "b" "2" true H1) as (s' & Hs & _).
  exists s'. exact Hs.
Defined.

(** On an open pool with a Thread at the head of the free stack, [run]
    takes that Thread, the one freed longest ago, and posts the job to it
    at once: nothing is queued and no Thread is started. *)
Theorem run_uses_first_free_thread s t fr jn jd spawn :
  closed (pool s) = false ->
  freeThreads (pool s) = Some t :: fr ->
  exists s',
    step (Run jn jd spawn) s = Some (s', [EPostMessage (id t) jn jd]) /\
    freeThreads (pool s') = fr /\
    busy s' = busy s ++
      [(t, {| jobName := jn; jobData := jd; jid := length (promises s) |}, false)] /\
    waitingJobs (pool s') = waitingJobs (pool s) /\
    jobsQueued (pool s') = jobsQueued (pool s) /\
    totalThreads (pool s') = totalThreads (pool s).
Proof.
  intros Hc Hf. destruct s as [[] ? ? ? ? ? ? ? ? ? ?]. simpl in *. subst.
  unfold run, run_resume, postJob, andThen, emit, modify, modify_pool. simpl.
  eexists. split; [reflexivity|]. simpl. repeat split.
Qed.

Lemma run_uses_first_free_thread_witness :
  closed (pool (after one_free_thread order_pool)) = false /\
  freeThreads (pool (after one_free_thread order_pool))
    = Some {| id := 1; createdAt := 0 |} :: [] /\
  exists s',
    step (Run "b" "2" true) (after one_free_thread order_pool)
      = Some (s', [EPostMessage 1 "b" "2"]).
Proof.
  assert (H1 : closed (pool (after one_free_thread order_pool)) = false)
    by (vm_compute; reflexivity).
  assert (H2 : freeThreads (pool (after one_free_thread order_pool))
               = Some {| id := 1; createdAt := 0 |} :: [])
    by (vm_compute; reflexivity).
  split; [exact H1|]. split; [exact H2|].
  destruct (run_uses_first_free_thread _ _ _ "b" "2" true H1 H2) as (s' & Hs & _).
  exists s'. exact Hs.
Defined.

(** X9.  A Worker that emits 'error' while it runs a job is never given back
    to the pool, which goes on counting it.  If the job had been posted
    by [run] itself its promise resolves with [undefined]; if it had come
    from [waitingJobs] its promise is pending for ever. *)
Theorem worker_error_outcome nm o s tid t j cb rest :
  reachable (new_ThreadPool nm [] o) s ->
  extract (fun e => has_tid tid (fst e)) (busy s) = Some ((t, j, cb), rest) ->
  exists s',
    step (WorkerError tid) s = Some (s', [EConsole "error" "postJob.catch"]) /\
    busy s' = rest /\
    pool s' = pool s /\
    (cb = false -> promises s' !! jid j = Some (Js.Resolved Undefined)) /\
    (cb = true -> forall ls s'' ev,
       exec ls s' = Some (s'', ev) -> promises s'' !! jid j = Some Js.Pending).
Proof.
  intros Hr He.
  pose proof (reachable_jobs_ok _ _ _ Hr (jid j)) as [Hle Hpend].
  pose proof He as He'.
  apply extract_Some in He' as (l1 & l2 & Hb & Hrest & _).
  assert (Hh : (1 <= holders (jid j) s)%nat).
  { unfold holders. rewrite Hb, sum_list_with_app. simpl.
    unfold hit at 3. rewrite decide_True by done. lia. }
  specialize (Hpend Hh).
  simpl. rewrite He.
  destruct s as [[] ? ? ? ? ? ? ? ? ? ?]. simpl in *.
  unfold onError, resolve_job, andThen, emit, modify, ret.
  destruct cb; simpl.
  - eexists. split; [reflexivity|]. simpl.
    split; [done|]. split; [done|]. split; [done|].
    intros _ ls s'' ev Hex.
    eapply abandoned_promise_stays_pending; [| |exact Hex]; [|exact Hpend].
    unfold holders in *. simpl in *. subst.
    rewrite !sum_list_with_app in *. simpl in *.
    unfold hit at 3 in Hle. rewrite decide_True in Hle by done. lia.
  - eexists. split; [reflexivity|]. simpl.
    split; [done|]. split; [done|]. split; [|done].
    intros _. by rewrite list_lookup_alter_eq, Hpend.
Qed.

Lemma worker_error_outcome_witness :
  reachable order_pool
    (after [Run "a" "1" true; Ready 1; Resume 0 true] order_pool) /\
  extract (fun e => has_tid 1 (fst e))
    (busy (after [Run "a" "1" true; Ready 1; Resume 0 true] order_pool))
  = Some (({| id := 1; createdAt := 0 |},
           {| jobName := "a"; jobData := "1"; jid := 0 |}, false), []) /\
  exists s',
    step (WorkerError 1) (after [Run "a" "1" true; Ready 1; Resume 0 true] order_pool)
      = Some (s', [EConsole "error" "postJob.catch"]) /\
    promises s' !! 0%nat = Some (Js.Resolved Undefined).
Proof.
  assert (H1 : reachable order_pool
            (after [Run "a" "1" true; Ready 1; Resume 0 true] order_pool))
    by apply after_reachable.
  assert (H2 : extract (fun e => has_tid 1 (fst e))
            (busy (after [Run "a" "1" true; Ready 1; Resume 0 true] order_pool))
          = Some (({| id := 1; createdAt := 0 |},
                   {| jobName := "a"; jobData := "1"; jid := 0 |}, false), []))
    by (vm_compute; reflexivity).
  split; [exact H1|]. split; [exact H2|].
  destruct (worker_error_outcome "ORDER" default_options _ _ _ _ _ _ H1 H2)
    as (s' & Hs & _ & _ & Hp & _).
  exists s'. split; [exact Hs|]. exact (Hp eq_refl).
Defined.

(** The periodic sweep does nothing unless a job waits and the free
    stack is not empty; otherwise it gives the oldest waiting job to the
    first entry of the free stack.  It never touches the counters. *)
Theorem dequeue_sweep s :
  exists s' ev,
    step Sweep s = Some (s', ev) /\
    jobsRequested (pool s') = jobsRequested (pool s) /\
    jobsQueued (pool s') = jobsQueued (pool s) /\
    totalThreads (pool s') = totalThreads (pool s) /\
    promises s' = promises s /\
    match freeThreads (pool s), waitingJobs (pool s) with
    | Some t :: fr, j :: w =>
        freeThreads (pool s') = fr /\ waitingJobs (pool s') = w /\
        busy s' = busy s ++ [(t, j, true)] /\
        ev = [EPostMessage (id t) (jobName j) (jobData j)]
    | None :: fr, j :: w =>
        freeThreads (pool s') = fr /\ waitingJobs (pool s') = w /\
        busy s' = busy s /\
        ev = [EConsole "error" "postJob.catch"]
    | _, _ => s' = s /\ ev = []
    end.
Proof.
  destruct s as [[] ? ? ? ? ? ? ? ? ? ?]. simpl.
  unfold dequeue, postJob, andThen, emit, modify, modify_pool, ret. simpl.
  destruct freeThreads0 as [|[t|] fr], waitingJobs0 as [|j w]; simpl;
    eexists _, _; (split; [reflexivity|]); simpl; repeat split.
Qed.

(** X10.  When the first entry of the free stack is [undefined], left there by
    a start that failed, the sweep takes the oldest waiting job off the
    queue and drops it: its promise is pending for ever. *)
Theorem sweep_drops_job_on_undefined_entry nm o s fr j w :
  reachable (new_ThreadPool nm [] o) s ->
  freeThreads (pool s) = None :: fr ->
  waitingJobs (pool s) = j :: w ->
  exists s',
    step Sweep s = Some (s', [EConsole "error" "postJob.catch"]) /\
    waitingJobs (pool s') = w /\
    busy s' = busy s /\
    forall ls s'' ev,
      exec ls s' = Some (s'', ev) -> promises s'' !! jid j = Some Js.Pending.
Proof.
  intros Hr Hf Hw.
  pose proof (reachable_jobs_ok _ _ _ Hr (jid j)) as [Hle Hpend].
  assert (Hh : (1 <= holders (jid j) s)%nat).
  { unfold holders. rewrite Hw. simpl.
    unfold hit at 1. rewrite decide_True by done. lia. }
  specialize (Hpend Hh).
  destruct s as [[] ? ? ? ? ? ? ? ? ? ?]. simpl in *. subst.
  unfold dequeue, postJob, andThen, emit, modify, modify_pool, ret. simpl.
  eexists. split; [reflexivity|]. simpl. split; [done|]. split; [done|].
  intros ls s'' ev Hex.
  eapply abandoned_promise_stays_pending; [| |exact Hex]; [|exact Hpend].
  unfold holders in *. simpl in *.
  unfold hit at 1 in Hle. rewrite decide_True in Hle by done. lia.
Qed.

(** A pool on which [startThreads] met a Worker that could not be
    constructed, and to which a job was submitted while it was closed. *)
Definition undefined_on_free_stack : list label :=
  [StartThreads false false; Resume 0 true; Close; Run "a" "1" true].

Lemma sweep_drops_job_on_undefined_entry_witness :
  reachable order_pool (after undefined_on_free_stack order_pool) /\
  freeThreads (pool (after undefined_on_free_stack order_pool)) = None :: [] /\
  waitingJobs (pool (after undefined_on_free_stack order_pool))
    = {| jobName := "a"; jobData := "1"; jid := 0 |} :: [] /\
  exists s',
    step Sweep (after undefined_on_free_stack order_pool)
      = Some (s', [EConsole "error" "postJob.catch"]) /\
    waitingJobs (pool s') = [].
Proof.
  assert (H1 : reachable order_pool (after undefined_on_free_stack order_pool))
    by apply after_reachable.
  assert (H2 : freeThreads (pool (after undefined_on_free_stack order_pool))
               = None :: []) by (vm_compute; reflexivity).
  assert (H3 : waitingJobs (pool (after undefined_on_free_stack order_pool))
               = {| jobName := "a"; jobData := "1"; jid := 0 |} :: [])
    by (vm_compute; reflexivity).
  split; [exact H1|]. split; [exact H2|]. split; [exact H3|].
  destruct (sweep_drops_job_on_undefined_entry "ORDER" default_options _ _ _ _ H1 H2 H3)
    as (s' & Hs & Hw & _).
  exists s'. split; [exact Hs | exact Hw].
Defined.

(** X11.  A Worker that never sends its first message: [newThread] has counted
    it in [totalThreads] when it was constructed, its timer cannot fire
    before 10000 ms, and when it fires the waiter goes on without a
    Thread while [totalThreads] still counts the Worker. *)
Theorem start_timeout_keeps_counting p s w dt :
  reachable p s ->
  exists s1,
    startThread true w s = (s1, [EStartThread; ENewWorker (nextThreadId s)]) /\
    totalThreads (pool s1) = totalThreads (pool s) + 1 /\
    step (StartTimeout (nextThreadId s)) s1 = None /\
    (0 < dt < 10000 ->
       exec [Tick dt; StartTimeout (nextThreadId s)] s1 = None) /\
    (10000 <= dt ->
       exists s2,
         exec [Tick dt; StartTimeout (nextThreadId s)] s1
           = Some (s2, [EConsole "error" "newThread.catch"]) /\
         resuming s2 = resuming s ++ [(w, None)] /\
         starting s2 = starting s /\
         totalThreads (pool s2) = totalThreads (pool s) + 1).
Proof.
  intros Hr. apply reachable_ids_fresh in Hr.
  destruct s as [[] ? ? ? ? ? ? ? ? ? ?]. unfold ids_fresh in Hr. simpl in *.
  unfold startThread, newThread, andThen, emit, modify, modify_pool. simpl.
  eexists. split; [reflexivity|]. simpl.
  assert (Hex : extract (fun e : Thread * waiter * Z => has_tid nextThreadId0 (fst e))
                  (starting0 ++
                   [({| id := nextThreadId0; createdAt := now0 |}, w, now0 + 10000)])
                = Some (({| id := nextThreadId0; createdAt := now0 |}, w, now0 + 10000),
                        starting0)).
  { apply extract_snoc.
    - intros [[t' w'] d'] Hin. apply Hr in Hin. unfold has_tid. simpl in *.
      apply Nat.eqb_neq. lia.
    - unfold has_tid. simpl. apply Nat.eqb_refl. }
  rewrite Hex.
  assert (Hnow : (now0 + 10000 <=? now0) = false) by (apply Z.leb_gt; lia).
  rewrite Hnow. repeat split.
  - intros [H0 H1].
    destruct (0 <? dt) eqn:E; [|apply Z.ltb_ge in E; lia]. simpl. rewrite Hex.
    destruct (now0 + 10000 <=? now0 + dt) eqn:E2; [apply Z.leb_le in E2; lia|done].
  - intros Hdt.
    destruct (0 <? dt) eqn:E; [|apply Z.ltb_ge in E; lia]. simpl. rewrite Hex.
    destruct (now0 + 10000 <=? now0 + dt) eqn:E2; [|apply Z.leb_gt in E2; lia].
    unfold andThen, emit, modify. simpl.
    eexists. split; [reflexivity|]. simpl. done.
Qed.

Lemma start_timeout_keeps_counting_witness :
  reachable order_pool (init order_pool) /\
  exists s1,
    startThread true (WStartThreads 0 0 false) (init order_pool)
      = (s1, [EStartThread; ENewWorker 1]) /\
    totalThreads (pool s1) = 1.
Proof.
  assert (H1 : reachable order_pool (init order_pool)) by apply reach_init.
  split; [exact H1|].
  destruct (start_timeout_keeps_counting _ _ (WStartThreads 0 0 false) 10000 H1)
    as (s1 & Hs & Ht & _).
  exists s1. split; [exact Hs | exact Ht].
Defined.

(** When [new Worker] throws, [newThread] logs the error, counts
    nothing, and its caller goes on without a Thread. *)
Theorem failed_construction_counts_nothing w s :
  exists s1,
    startThread false w s
      = (s1, [EStartThread; EConsole "error" "newThread";
              EConsole "error" "newThread.catch"]) /\
    pool s1 = pool s /\
    starting s1 = starting s /\
    resuming s1 = resuming s ++ [(w, None)].
Proof.
  destruct s as [[] ? ? ? ? ? ? ? ? ? ?].
  unfold startThread, newThread, andThen, emit, modify. simpl.
  eexists. split; [reflexivity|]. simpl. repeat split.
Qed.

(** * ThreadPoolFactory: the registry of pools *)

(** ** A JavaScript [Map]: entries in insertion order, at most one per key *)

Section JsMap.
Context {K V : Type} `{EqDecision K}.

Fixpoint map_get (k : K) (m : list (K * V)) : option V :=
  match m with
  | [] => None
  | (k', v) :: m' => if decide (k = k') then Some v else map_get k m'
  end.

Definition map_has (k : K) (m : list (K * V)) : bool :=
  match map_get k m with
  | Some _ => true
  | None => false
  end.

(** [set]: an existing key keeps its position, a new one goes last. *)
Fixpoint map_set (k : K) (v : V) (m : list (K * V)) : list (K * V) :=
  match m with
  | [] => [(k, v)]
  | (k', v') :: m' =>
      if decide (k = k') then (k, v) :: m' else (k', v') :: map_set k v m'
  end.

(** [delete]: the map without the key, and whether the key was there. *)
Fixpoint map_delete (k : K) (m : list (K * V)) : list (K * V) * bool :=
  match m with
  | [] => ([], false)
  | (k', v') :: m' =>
      if decide (k = k') then (m', true)
      else let '(m'', b) := map_delete k m' in ((k', v') :: m'', b)
  end.

Lemma map_get_set_eq k v m : map_get k (map_set k v m) = Some v.
Proof.
  induction m as [|[k' v'] m IH]; simpl.
  - by rewrite decide_True.
  - destruct (decide (k = k')); simpl.
    + by rewrite decide_True.
    + by rewrite decide_False.
Qed.

Lemma map_get_set_ne k k' v m : k <> k' -> map_get k' (map_set k v m) = map_get k' m.
Proof.
  intros Hne. induction m as [|[k0 v0] m IH]; simpl.
  - by rewrite decide_False.
  - destruct (decide (k = k0)) as [->|]; simpl.
    + by rewrite !decide_False.
    + destruct (decide (k' = k0)); [done|]. exact IH.
Qed.

Lemma map_keys_set k v m :
  (map_set k v m).*1 = if map_has k m then m.*1 else m.*1 ++ [k].
Proof.
  unfold map_has. induction m as [|[k' v'] m IH]; [done|].
  cbn [map_set map_get].
  destruct (decide (k = k')) as [->|]; [done|].
  rewrite fmap_cons, IH. by destruct (map_get k m).
Qed.

Lemma map_get_None_keys k m : map_get k m = None -> k ∉ m.*1.
Proof.
  induction m as [|[k' v'] m IH]; simpl; intros H Hin.
  - by apply elem_of_nil in Hin.
  - destruct (decide (k = k')); [done|].
    apply elem_of_cons in Hin as [?|Hin]; [done|]. by apply IH.
Qed.

Lemma map_set_NoDup k v m : NoDup m.*1 -> NoDup (map_set k v m).*1.
Proof.
  intros Hnd. rewrite map_keys_set. unfold map_has.
  destruct (map_get k m) eqn:Hg; [done|].
  apply NoDup_app. split; [done|]. split.
  - intros x Hx Hin. apply list_elem_of_singleton in Hin as ->.
    by apply (map_get_None_keys _ _ Hg).
  - apply NoDup_singleton.
Qed.

Lemma map_delete_absent k m : k ∉ m.*1 -> map_delete k m = (m, false).
Proof.
  induction m as [|[k' v'] m IH]; simpl; intros Hn; [done|].
  destruct (decide (k = k')) as [->|].
  - exfalso. apply Hn. by left.
  - rewrite IH; [done|]. intros Hin. apply Hn. by right.
Qed.

End JsMap.

(** ** The factory *)

(** Keys that reach [threadPools]: strings, and, through [delete] in
    [destroy], a pool object. *)
Inductive mapkey :=
| KString (s : string)
| KObject (ref : nat).

#[global] Instance mapkey_eq_dec : EqDecision mapkey.
Proof. solve_decision. Defined.

(** A ThreadPool object: its identity and its state.  Each pool runs on
    a clock of its own. *)
Record PoolObj := mkPoolObj {
  ref : nat;
  sys : Sys
}.

Record Registry := mkRegistry {
  threadPools : list (mapkey * PoolObj);
  nextRef : nat
}.

Definition empty_registry : Registry := {| threadPools := []; nextRef := 0 |}.

(** [createThreadPool]; [spawn] says how [new Worker] fares if the
    constructor preloads. *)
Definition createThreadPool (modelName : string) (o : Options) (spawn : bool)
    (r : Registry) : PoolObj * Registry * list event :=
  let s0 := init (new_ThreadPool modelName [] o) in
  let '(s1, ev) := if opt_preload o then startThreads true spawn s0 else (s0, []) in
  let po := {| ref := nextRef r; sys := s1 |} in
  (po,
   {| threadPools := map_set (KString modelName) po (threadPools r);
      nextRef := S (nextRef r) |},
   EConsole "debug" "createThreadPool" :: ev).

Definition listPools (r : Registry) : list mapkey := (threadPools r).*1.

(** The inner [getPool] of [getThreadPool]. *)
Definition getPool (poolName : string) (o : Options) (spawn : bool)
    (r : Registry) : PoolObj * Registry * list event :=
  match map_get (KString poolName) (threadPools r) with
  | Some po => (po, r, [])
  | None => createThreadPool poolName o spawn r
  end.

(** What [getThreadPool] returns: the pool, or the facade that closes
    over the name and the options. *)
Inductive handle :=
| HPool (po : PoolObj)
| HFacade (poolName : string) (o : Options).

Definition getThreadPool (poolName : string) (o : Options) (spawn : bool)
    (r : Registry) : handle * Registry * list event :=
  if opt_preload o then
    let '(po, r', ev) := getPool poolName o spawn r in (HPool po, r', ev)
  else (HFacade poolName o, r, []).

(** The pool object is shared: what a method does to it shows in the
    registry entry. *)
Definition update_pool (k : mapkey) (po : PoolObj) (s : Sys) (r : Registry) : Registry :=
  {| threadPools := map_set k {| ref := ref po; sys := s |} (threadPools r);
     nextRef := nextRef r |}.

(** [facade.run(jobName, jobData)] up to the suspension of [run]. *)
Definition facade_run (poolName : string) (o : Options) (jn jd : string)
    (spawn : bool) (r : Registry) : Registry * list event :=
  let '(po, r1, e1) := getPool poolName o spawn r in
  let '(s', e2) := run jn jd spawn (sys po) in
  (update_pool (KString poolName) po s' r1, e1 ++ e2).

(** [status()] of a pool. *)
Record Status := mkStatus {
  st_name : string;
  st_open : bool;
  st_max : Z;
  st_min : Z;
  st_total : Z;
  st_waiting : nat;
  st_available : nat;
  st_transactions : Z;
  st_queueRate : Js.number;
  st_tolerance : Z;
  st_reloads : Z
}.

Definition pool_status (p : ThreadPool) : Status :=
  {| st_name := name p;
     st_open := negb (closed p);
     st_max := maxPoolSize p;
     st_min := minPoolSize p;
     st_total := poolSize p;
     st_waiting := jobQueueDepth p;
     st_available := availThreadCount p;
     st_transactions := jobsRequested p;
     st_queueRate := jobQueueRate p;
     st_tolerance := maxJobQueueRate p;
     st_reloads := reloads p |}.

(** A result or an exception. *)
Inductive outcome (A : Type) :=
| Return (v : A)
| Throw (what : string).
Arguments Return {A} v.
Arguments Throw {A} what.

(** What [status] of the factory returns: one report or all of them. *)
Inductive report :=
| One (st : Status)
| All (sts : list Status).

(** [status(poolName = null)] of the factory; a name that is left out,
    [null] or empty is falsy. *)
Definition factory_status (poolName : option string) (r : Registry) : outcome report :=
  match poolName with
  | Some n =>
      if decide (n = "") then
        Return (All ((fun e => pool_status (pool (sys e.2))) <$> threadPools r))
      else
        match map_get (KString (Js.toUpperCase n)) (threadPools r) with
        | Some po => Return (One (pool_status (pool (sys po))))
        | None => Throw "TypeError"
        end
  | None => Return (All ((fun e => pool_status (pool (sys e.2))) <$> threadPools r))
  end.

(** What the promise of [reload] or [destroy] settles to. *)
Inductive settled :=
| SPending
| SPool (po : PoolObj)           (* resolve(pool) *)
| SBool (b : bool)               (* resolve(threadPools.delete(..)) *)
| SUndefined.                    (* a rejection that console.error swallowed *)

(** [pool.close().notify(poolClose).drain()], the common start of
    [reload] and [destroy]; [evs] is what happens to the pool until the
    promise of [drain] is looked at. *)
Definition close_and_drain (evs : list label) (s : Sys)
    : option (Sys * list event * Js.pstate retval) :=
  let s1 := with_pool s (close (pool s)) in
  let c := length (calls s1) in
  let '(s2, e2) := (emit (EEmit "poolClose") >>> drain) s1 in
  match exec evs s2 with
  | Some (s3, e3) =>
      match calls s3 !! c with
      | Some d => Some (s3, e2 ++ e3, d)
      | None => None
      end
  | None => None
  end.

(** [destroy(poolName)].  [None] when the schedule [evs] cannot happen. *)
Definition destroy (poolName : string) (evs : list label) (r : Registry)
    : option (Registry * settled * list event) :=
  let key := KString (Js.toUpperCase poolName) in
  match map_get key (threadPools r) with
  | None =>
      (* reject('no such pool'); the TypeError of [pool.close()] that
         follows is lost; .catch(console.error) *)
      Some (r, SUndefined,
            [EConsole "debug" "dispose pool"; EConsole "error" "no such pool"])
  | Some po =>
      match close_and_drain evs (sys po) with
      | None => None
      | Some (s3, e3, d) =>
          match d with
          | Js.Pending =>
              Some (update_pool key po s3 r, SPending,
                    EConsole "debug" "dispose pool" :: e3)
          | Js.Resolved This =>
              let '(s4, e4) := stopThreads s3 in
              let r4 := update_pool key po s4 r in
              let '(m, b) := map_delete (KObject (ref po)) (threadPools r4) in
              Some ({| threadPools := m; nextRef := nextRef r4 |}, SBool b,
                    EConsole "debug" "dispose pool" :: e3 ++ e4)
          | Js.Resolved Undef =>
              (* [pool.stopThreads()] on undefined: TypeError, .catch(reject),
                 .catch(console.error) *)
              Some (update_pool key po s3 r, SUndefined,
                    EConsole "debug" "dispose pool" :: e3 ++
                    [EConsole "error" "TypeError"])
          | Js.Rejected e =>
              Some (update_pool key po s3 r, SUndefined,
                    EConsole "debug" "dispose pool" :: e3 ++
                    [EConsole "error" e])
          end
      end
  end.

(** [reload(poolName)]; [evs2] is what happens to the pool between
    [startThreads] and the moment its promise is looked at. *)
Definition reload (poolName : string) (evs evs2 : list label) (spawn : bool)
    (r : Registry) : option (Registry * settled * list event) :=
  let key := KString (Js.toUpperCase poolName) in
  match map_get key (threadPools r) with
  | None => Some (r, SUndefined, [EConsole "error" "no such pool"])
  | Some po =>
      match close_and_drain evs (sys po) with
      | None => None
      | Some (s3, e3, d) =>
          match d with
          | Js.Pending => Some (update_pool key po s3 r, SPending, e3)
          | Js.Resolved This =>
              let '(s4, e4) := stopThreads s3 in
              let c := length (calls s4) in
              let '(s5, e5) := startThreads false spawn s4 in
              match exec evs2 s5 with
              | None => None
              | Some (s6, e6) =>
                  match calls s6 !! c with
                  | Some (Js.Resolved _) =>
                      let s7 := with_pool s6 (bumpDeployCount (open (pool s6))) in
                      Some (update_pool key po s7 r,
                            SPool {| ref := ref po; sys := s7 |},
                            e3 ++ e4 ++ e5 ++ e6 ++ [EEmit "poolOpen"])
                  | _ => Some (update_pool key po s6 r, SPending,
                               e3 ++ e4 ++ e5 ++ e6)
                  end
              end
          | Js.Resolved Undef =>
              Some (update_pool key po s3 r, SUndefined,
                    e3 ++ [EConsole "error" "reload"])
          | Js.Rejected e =>
              Some (update_pool key po s3 r, SUndefined,
                    e3 ++ [EConsole "error" "reload"])
          end
      end
  end.

(** ** Properties of the registry *)

Definition string_keys (r : Registry) : Prop :=
  forall k, k ∈ listPools r -> exists s, k = KString s.

Lemma update_pool_keys k po s r po0 :
  map_get k (threadPools r) = Some po0 ->
  listPools (update_pool k po s r) = listPools r.
Proof.
  intros Hg. unfold listPools, update_pool. simpl.
  rewrite map_keys_set. unfold map_has. by rewrite Hg.
Qed.

Lemma delete_object_absent r n :
  string_keys r -> map_delete (KObject n) (threadPools r) = (threadPools r, false).
Proof.
  intros Hk. apply map_delete_absent. intros Hin.
  destruct (Hk _ Hin) as [s Hs]. discriminate.
Qed.

Lemma update_pool_string_keys k po s r po0 :
  map_get k (threadPools r) = Some po0 ->
  string_keys r -> string_keys (update_pool k po s r).
Proof.
  intros Hg Hk k' Hin. apply Hk.
  by rewrite (update_pool_keys _ _ _ _ _ Hg) in Hin.
Qed.

Lemma destroy_keys poolName evs r r' st ev :
  string_keys r ->
  destroy poolName evs r = Some (r', st, ev) ->
  listPools r' = listPools r /\ st <> SBool true.
Proof.
  intros Hk Hd. unfold destroy in Hd.
  destruct (map_get _ (threadPools r)) as [po|] eqn:Hg.
  - destruct (close_and_drain evs (sys po)) as [[[s3 e3] d]|]; [|done].
    destruct d as [|[]|e].
    + simplify_eq. split; [by eapply update_pool_keys|done].
    + destruct (stopThreads s3) as [s4 e4].
      rewrite delete_object_absent in Hd
        by (eapply update_pool_string_keys; eauto).
      simplify_eq. split; [|done].
      unfold listPools. simpl. rewrite map_keys_set. unfold map_has. by rewrite Hg.
    + simplify_eq. split; [by eapply update_pool_keys|done].
    + simplify_eq. split; [by eapply update_pool_keys|done].
  - simplify_eq. done.
Qed.

(** The registry after [createThreadPool("ORDER", {preload: false})]. *)
Definition order_registry : Registry :=
  snd (fst (createThreadPool "ORDER" default_options true empty_registry)).

(** A lower-case ASCII letter, and whether a name has one. *)
Definition is_lower (c : ascii) : bool :=
  (97 <=? nat_of_ascii c)%nat && (nat_of_ascii c <=? 122)%nat.

Fixpoint has_lower (s : string) : bool :=
  match s with
  | EmptyString => false
  | String c s' => is_lower c || has_lower s'
  end.

Lemma upper_ascii_not_lower c : is_lower (Js.upper_ascii c) = false.
Proof.
  unfold Js.upper_ascii, is_lower.
  pose proof (nat_ascii_bounded c) as Hb.
  destruct (Nat.leb 97 (nat_of_ascii c) && Nat.leb (nat_of_ascii c) 122) eqn:E.
  - apply andb_true_iff in E as [E1 E2]. apply Nat.leb_le in E1, E2.
    rewrite nat_ascii_embedding by lia.
    apply andb_false_iff. left. apply Nat.leb_gt. lia.
  - exact E.
Qed.

Lemma toUpperCase_no_lower s : has_lower (Js.toUpperCase s) = false.
Proof.
  induction s as [|c s IH]; [done|].
  cbn [Js.toUpperCase has_lower]. by rewrite upper_ascii_not_lower, IH.
Qed.

(** X12.  [createThreadPool] stores the pool under the name as it was given,
    while [status], [reload] and [destroy] look names up in upper case: a
    pool is found under the names whose upper-case form is the name it
    was created with; under any other name [status] throws and [reload]
    and [destroy] log 'no such pool' and resolve with [undefined].  A
    pool whose name has a lower-case letter is found under no name. *)
Theorem pool_is_found_by_upper_case_name modelName o spawn poolName :
  poolName <> "" ->
  let r := snd (fst (createThreadPool modelName o spawn empty_registry)) in
  ((exists st, factory_status (Some poolName) r = Return (One st))
     <-> Js.toUpperCase poolName = modelName) /\
  (Js.toUpperCase poolName <> modelName ->
     factory_status (Some poolName) r = Throw "TypeError" /\
     (forall evs evs2 sp,
        reload poolName evs evs2 sp r
        = Some (r, SUndefined, [EConsole "error" "no such pool"])) /\
     (forall evs,
        destroy poolName evs r
        = Some (r, SUndefined,
                [EConsole "debug" "dispose pool"; EConsole "error" "no such pool"]))) /\
  (has_lower modelName = true -> Js.toUpperCase poolName <> modelName).
Proof.
  intros Hne0. unfold createThreadPool. simpl.
  destruct (if opt_preload o then _ else _) as [s1 ev1]. simpl.
  unfold factory_status, reload, destroy. simpl.
  destruct (decide (poolName = "")) as [|_]; [done|].
  split; [|split].
  - destruct (decide (KString (Js.toUpperCase poolName) = KString modelName))
      as [Heq|Hne].
    + injection Heq as Heq. split; [done|eauto].
    + split; [intros [st Hst]; discriminate|congruence].
  - intros Hne. rewrite decide_False by congruence. done.
  - intros Hl Heq. rewrite <- Heq, toUpperCase_no_lower in Hl. discriminate.
Qed.

Lemma pool_is_found_by_upper_case_name_witness :
  "order" <> "" /\
  factory_status (Some "order")
    (snd (fst (createThreadPool "order" default_options true empty_registry)))
  = Throw "TypeError".
Proof.
  assert (H0 : "order" <> "") by discriminate.
  split; [exact H0|].
  destruct (pool_is_found_by_upper_case_name "order" default_options true "order" H0)
    as (_ & Hother & Hlower).
  exact (proj1 (Hother (Hlower eq_refl))).
Defined.

(** The registries that can arise: from the calls of the factory, and
    from what happens to a pool that is in the registry. *)
Inductive registry_reachable : Registry -> Prop :=
| rr_empty : registry_reachable empty_registry
| rr_create r n o sp :
    registry_reachable r ->
    registry_reachable (snd (fst (createThreadPool n o sp r)))
| rr_get r n o sp :
    registry_reachable r ->
    registry_reachable (snd (fst (getThreadPool n o sp r)))
| rr_run r n o jn jd sp :
    registry_reachable r ->
    registry_reachable (fst (facade_run n o jn jd sp r))
| rr_step r k po l s' ev :
    registry_reachable r ->
    map_get k (threadPools r) = Some po -> step l (sys po) = Some (s', ev) ->
    registry_reachable (update_pool k po s' r)
| rr_destroy r n evs r' st ev :
    registry_reachable r -> destroy n evs r = Some (r', st, ev) ->
    registry_reachable r'
| rr_reload r n evs evs2 sp r' st ev :
    registry_reachable r -> reload n evs evs2 sp r = Some (r', st, ev) ->
    registry_reachable r'.

Definition keys_ok (r : Registry) : Prop :=
  NoDup (listPools r) /\ string_keys r.

Lemma set_string_keys_ok n po r :
  keys_ok r ->
  keys_ok {| threadPools := map_set (KString n) po (threadPools r);
             nextRef := S (nextRef r) |}.
Proof.
  intros [Hnd Hk]. split.
  - by apply map_set_NoDup.
  - intros k Hin. unfold listPools in Hin. simpl in Hin.
    rewrite map_keys_set in Hin.
    destruct (map_has _ _); [by apply Hk|].
    apply elem_of_app in Hin as [Hin|Hin]; [by apply Hk|].
    apply list_elem_of_singleton in Hin as ->. eauto.
Qed.

Lemma createThreadPool_keys_ok n o sp r :
  keys_ok r -> keys_ok (snd (fst (createThreadPool n o sp r))).
Proof.
  intros H. unfold createThreadPool.
  destruct (if opt_preload o then _ else _) as [s1 ev1]. simpl.
  by apply set_string_keys_ok.
Qed.

Lemma getPool_keys_ok n o sp r :
  keys_ok r -> keys_ok (snd (fst (getPool n o sp r))).
Proof.
  intros H. unfold getPool.
  destruct (map_get _ _); [done|]. by apply createThreadPool_keys_ok.
Qed.

Lemma update_pool_keys_ok k po s r po0 :
  map_get k (threadPools r) = Some po0 -> keys_ok r -> keys_ok (update_pool k po s r).
Proof.
  intros Hg [Hnd Hk]. split.
  - by rewrite (update_pool_keys _ _ _ _ _ Hg).
  - by eapply update_pool_string_keys.
Qed.

Lemma getPool_get n o sp r :
  map_get (KString n) (threadPools (snd (fst (getPool n o sp r))))
  = Some (fst (fst (getPool n o sp r))).
Proof.
  unfold getPool. destruct (map_get _ (threadPools r)) eqn:Hg; [done|].
  unfold createThreadPool.
  destruct (if opt_preload o then _ else _) as [s1 ev1]. simpl.
  apply map_get_set_eq.
Qed.

Lemma reachable_keys_ok r : registry_reachable r -> keys_ok r.
Proof.
  induction 1 as [|r n o sp _ IH|r n o sp _ IH|r n o jn jd sp _ IH
                  |r k po l s' ev _ IH Hg Hs
                  |r n evs r' st ev _ IH Hd|r n evs evs2 sp r' st ev _ IH Hr].
  - split; [constructor|]. intros k Hin. by apply elem_of_nil in Hin.
  - by apply createThreadPool_keys_ok.
  - unfold getThreadPool. destruct (opt_preload o); [|done].
    pose proof (getPool_keys_ok n o sp r IH).
    by destruct (getPool n o sp r) as [[po r1] e1].
  - unfold facade_run.
    pose proof (getPool_keys_ok n o sp r IH) as Hok.
    pose proof (getPool_get n o sp r) as Hg.
    destruct (getPool n o sp r) as [[po r1] e1]. simpl in *.
    destruct (run jn jd sp (sys po)) as [s' e2]. simpl.
    by eapply update_pool_keys_ok.
  - by eapply update_pool_keys_ok.
  - destruct IH as [Hnd Hk].
    destruct (destroy_keys _ _ _ _ _ _ Hk Hd) as [Hl _].
    split; [by rewrite Hl|]. intros k Hin. apply Hk. by rewrite <- Hl.
  - unfold reload in Hr.
    destruct (map_get _ (threadPools r)) as [po|] eqn:Hg; [|by simplify_eq].
    destruct (close_and_drain evs (sys po)) as [[[s3 e3] d]|]; [|done].
    destruct d as [|[]|e]; try (simplify_eq; by eapply update_pool_keys_ok).
    destruct (stopThreads s3) as [s4 e4].
    destruct (startThreads false sp s4) as [s5 e5].
    destruct (exec evs2 s5) as [[s6 e6]|]; [|done].
    destruct (calls s6 !! _) as [[]|]; simplify_eq;
      by eapply update_pool_keys_ok.
Qed.

(** X13.  [destroy] never removes a pool from the registry: it calls
    [threadPools.delete] with the pool object, and the keys are strings.
    In every registry the factory can produce, and whatever the pool
    does meanwhile, the names listed afterwards are the names listed
    before, and the promise never resolves with [true]. *)
Theorem destroy_removes_nothing poolName evs r r' st ev :
  registry_reachable r ->
  destroy poolName evs r = Some (r', st, ev) ->
  listPools r' = listPools r /\ st <> SBool true.
Proof.
  intros Hr Hd. destruct (reachable_keys_ok r Hr) as [_ Hk].
  exact (destroy_keys _ _ _ _ _ _ Hk Hd).
Qed.

Lemma destroy_removes_nothing_witness :
  registry_reachable order_registry /\
  (exists r', destroy "order" [] order_registry
              = Some (r', SBool false,
                      [EConsole "debug" "dispose pool"; EEmit "poolClose";
                       EEmit "poolDrain"]) /\
              listPools r' = [KString "ORDER"]).
Proof.
  assert (H1 : registry_reachable order_registry).
  { apply (rr_create empty_registry "ORDER" default_options true), rr_empty. }
  split; [exact H1|].
  destruct (destroy "order" [] order_registry) as [[[r' st] ev]|] eqn:Hd;
    [|vm_compute in Hd; discriminate].
  pose proof (destroy_removes_nothing _ _ _ _ _ _ H1 Hd) as [Hl _].
  exists r'. split.
  - assert (Hd' := Hd). vm_compute in Hd'.
    injection Hd' as <- <- <-. vm_compute. reflexivity.
  - rewrite Hl. vm_compute. reflexivity.
Defined.



Lemma facade_run_eq n o jn jd sp r :
  facade_run n o jn jd sp r
  = (update_pool (KString n) (fst (fst (getPool n o sp r)))
       (fst (run jn jd sp (sys (fst (fst (getPool n o sp r))))))
       (snd (fst (getPool n o sp r))),
     snd (getPool n o sp r)
       ++ snd (run jn jd sp (sys (fst (fst (getPool n o sp r)))))).
Proof.
  unfold facade_run. destruct (getPool n o sp r) as [[po r1] e1]. simpl.
  by destruct (run jn jd sp (sys po)).
Qed.

(** X15.  [getThreadPool] without preload touches nothing; the first call
    through the facade creates the pool, every later one finds it: two
    calls of the facade's [run] leave one pool, created once, with two
    jobs requested. *)
Theorem facade_creates_the_pool_once n o jn jd jn' jd' sp sp' r :
  opt_preload o = false ->
  map_get (KString n) (threadPools r) = None ->
  getThreadPool n o sp r = (HFacade n o, r, []) /\
  let r1 := fst (facade_run n o jn jd sp r) in
  let r2 := fst (facade_run n o jn' jd' sp' r1) in
  listPools r1 = listPools r ++ [KString n] /\
  listPools r2 = listPools r1 /\
  nextRef r2 = S (nextRef r) /\
  exists po, map_get (KString n) (threadPools r2) = Some po /\
             ref po = nextRef r /\
             jobsRequested (pool (sys po)) = 2.
Proof.
  intros Hpre Hnone.
  split; [unfold getThreadPool; by rewrite Hpre|].
  assert (Hg : getPool n o sp r
               = ({| ref := nextRef r; sys := init (new_ThreadPool n [] o) |},
                  {| threadPools := map_set (KString n)
                       {| ref := nextRef r; sys := init (new_ThreadPool n [] o) |}
                       (threadPools r);
                     nextRef := S (nextRef r) |},
                  [EConsole "debug" "createThreadPool"])).
  { unfold getPool, createThreadPool. by rewrite Hnone, Hpre. }
  cbv zeta. rewrite (facade_run_eq n o jn jd sp r), Hg. cbn [fst snd sys].
  set (s0 := init (new_ThreadPool n [] o)).
  set (s1 := fst (run jn jd sp s0)).
  set (r1 := update_pool _ _ s1 _).
  assert (Hg1 : getPool n o sp' r1 = ({| ref := nextRef r; sys := s1 |}, r1, [])).
  { unfold getPool, r1, update_pool. simpl. by rewrite !map_get_set_eq. }
  rewrite (facade_run_eq n o jn' jd' sp' r1), Hg1. cbn [fst snd sys].
  set (s2 := fst (run jn' jd' sp' s1)).
  unfold r1, update_pool, listPools. simpl.
  rewrite !map_keys_set. unfold map_has.
  rewrite !map_get_set_eq, Hnone.
  split; [done|]. split; [done|]. split; [done|].
  eexists. split; [reflexivity|]. simpl. split; [done|].
  destruct (step_counts_run (Run jn jd sp) s0 s1 (snd (run jn jd sp s0)))
    as [H1 _]; [simpl; by destruct (run jn jd sp s0)|].
  destruct (step_counts_run (Run jn' jd' sp') s1 s2 (snd (run jn' jd' sp' s1)))
    as [H2 _]; [simpl; by destruct (run jn' jd' sp' s1)|].
  rewrite H2, H1. reflexivity.
Qed.

Lemma facade_creates_the_pool_once_witness :
  opt_preload default_options = false /\
  map_get (KString "ORDER") (threadPools empty_registry) = None /\
  getThreadPool "ORDER" default_options true empty_registry
    = (HFacade "ORDER" default_options, empty_registry, []).
Proof.
  split; [reflexivity|]. split; [reflexivity|].
  exact (proj1 (facade_creates_the_pool_once "ORDER" default_options
                  "a" "1" "b" "2" true true empty_registry eq_refl eq_refl)).
Defined.

(** *** Reload *)

Definition is_Open (l : label) : bool :=
  match l with Open => true | _ => false end.

Lemma step_keeps_reloads l s s' ev :
  step l s = Some (s', ev) ->
  reloads (pool s') = reloads (pool s) /\
  (is_Open l = false -> closed (pool s) = true -> closed (pool s') = true).
Proof.
  intros Hs. step_paths s l Hs; simpl; split; try done.
Qed.

Lemma exec_keeps_reloads ls : forall s s' ev,
  exec ls s = Some (s', ev) ->
  reloads (pool s') = reloads (pool s) /\
  (forallb (fun l => negb (is_Open l)) ls = true ->
   closed (pool s) = true -> closed (pool s') = true).
Proof.
  induction ls as [|l ls IH]; intros s s' ev He; simpl in He.
  - by simplify_eq.
  - destruct (step l s) as [[s1 e1]|] eqn:Hs; [|done].
    destruct (exec ls s1) as [[s2 e2]|] eqn:He2; [|done]. simplify_eq.
    apply step_keeps_reloads in Hs as [Hs1 Hs2].
    apply IH in He2 as [He1 He3]. split; [congruence|].
    simpl. intros Hall Hc. apply andb_true_iff in Hall as [Hl Hall].
    apply He3; [done|]. apply Hs2; [|done]. by destruct (is_Open l).
Qed.

(** [close_and_drain] is the schedule Close, Drain, [evs]. *)
Lemma close_and_drain_exec evs s :
  close_and_drain evs s
  = match exec (Close :: Drain :: evs) s with
    | Some (s3, e3) =>
        match calls s3 !! length (calls s) with
        | Some d => Some (s3, EEmit "poolClose" :: e3, d)
        | None => None
        end
    | None => None
    end.
Proof.
  unfold close_and_drain. cbn [exec step app].
  unfold andThen at 1. unfold emit at 1. cbn [fst snd].
  destruct (drain _) as [s2 e2]. simpl.
  by destruct (exec evs s2) as [[s3 e3]|].
Qed.

Lemma close_and_drain_closed evs s s3 e3 d :
  close_and_drain evs s = Some (s3, e3, d) ->
  reloads (pool s3) = reloads (pool s) /\
  (forallb (fun l => negb (is_Open l)) evs = true -> closed (pool s3) = true).
Proof.
  rewrite close_and_drain_exec. cbn [exec step].
  destruct (drain _) as [s2 e2] eqn:Hd.
  destruct (exec evs s2) as [[s3' e3']|] eqn:He; [|done].
  destruct (calls s3' !! _); [|done]. intros H. simplify_eq.
  apply exec_keeps_reloads in He as [He1 He2].
  assert (Hs : step Drain (with_pool s (close (pool s))) = Some (s2, e2))
    by (simpl; by rewrite Hd).
  apply step_keeps_reloads in Hs as [Hs1 Hs2].
  split.
  - rewrite He1, Hs1. by destruct s as [[] ? ? ? ? ? ? ? ? ? ?].
  - intros Hall. apply He2; [done|]. apply Hs2; [done|].
    by destruct s as [[] ? ? ? ? ? ? ? ? ? ?].
Qed.

(** X16.  [reload] opens the pool again and counts a reload exactly when it
    resolves with the pool.  In every other outcome (the drain timed out,
    or something is still pending) the pool is left closed and [reloads]
    is what it was, as long as nobody else opens the pool. *)
Theorem reload_opens_only_on_success poolName evs evs2 sp r po r' st ev :
  map_get (KString (Js.toUpperCase poolName)) (threadPools r) = Some po ->
  forallb (fun l => negb (is_Open l)) (evs ++ evs2) = true ->
  reload poolName evs evs2 sp r = Some (r', st, ev) ->
  exists po',
    map_get (KString (Js.toUpperCase poolName)) (threadPools r') = Some po' /\
    ref po' = ref po /\
    match st with
    | SPool p =>
        p = po' /\ closed (pool (sys po')) = false /\
        reloads (pool (sys po')) = reloads (pool (sys po)) + 1
    | _ =>
        closed (pool (sys po')) = true /\
        reloads (pool (sys po')) = reloads (pool (sys po))
    end.
Proof.
  intros Hg Hall Hr. rewrite forallb_app in Hall.
  apply andb_true_iff in Hall as [Hall1 Hall2].
  unfold reload in Hr. rewrite Hg in Hr.
  destruct (close_and_drain evs (sys po)) as [[[s3 e3] d]|] eqn:Hcd; [|done].
  apply close_and_drain_closed in Hcd as [Hre Hcl]. specialize (Hcl Hall1).
  destruct d as [|[]|e].
  - simplify_eq. eexists. unfold update_pool. simpl.
    rewrite map_get_set_eq. by repeat split.
  - destruct (stopThreads s3) as [s4 e4] eqn:Hst.
    destruct (startThreads false sp s4) as [s5 e5] eqn:Hsta.
    destruct (exec evs2 s5) as [[s6 e6]|] eqn:He; [|done].
    assert (H4 : step StopThreads s3 = Some (s4, e4)) by (simpl; by rewrite Hst).
    assert (H5 : step (StartThreads false sp) s4 = Some (s5, e5))
      by (simpl; by rewrite Hsta).
    apply step_keeps_reloads in H4 as [H4a H4b].
    apply step_keeps_reloads in H5 as [H5a H5b].
    apply exec_keeps_reloads in He as [H6a H6b].
    assert (Hc6 : closed (pool s6) = true) by auto.
    assert (Hr6 : reloads (pool s6) = reloads (pool (sys po))) by congruence.
    destruct (calls s6 !! _) as [[| |]|]; simplify_eq;
      eexists; unfold update_pool; simpl; rewrite map_get_set_eq;
      (split; [reflexivity|]); simpl; (split; [done|]); try done.
    split; [done|]. destruct s6 as [[] ? ? ? ? ? ? ? ? ? ?]. simpl in *.
    split; [done|]. lia.
  - simplify_eq. eexists. unfold update_pool. simpl.
    rewrite map_get_set_eq. by repeat split.
  - simplify_eq. eexists. unfold update_pool. simpl.
    rewrite map_get_set_eq. by repeat split.
Qed.

(** The registry whose pool ORDER has a job running. *)
Definition busy_registry : Registry :=
  update_pool (KString "ORDER")
    {| ref := 0; sys := init order_pool |}
    (after [Run "a" "1" true; Ready 1; Resume 0 true] order_pool)
    order_registry.

Lemma reload_opens_only_on_success_witness :
  exists r' ev po',
    reload "order" [Tick 4000; DrainTimeout 0] [] true busy_registry
      = Some (r', SUndefined, ev) /\
    map_get (KString "ORDER") (threadPools r') = Some po' /\
    closed (pool (sys po')) = true /\
    reloads (pool (sys po')) = 0.
Proof.
  destruct (reload "order" [Tick 4000; DrainTimeout 0] [] true busy_registry)
    as [[[r' st] ev]|] eqn:Hr; [|vm_compute in Hr; discriminate].
  assert (Hst : st = SUndefined) by (vm_compute in Hr; congruence).
  subst st.
  destruct (reload_opens_only_on_success "order" [Tick 4000; DrainTimeout 0] []
              true busy_registry _ r' SUndefined ev eq_refl eq_refl Hr)
    as (po' & Hg & _ & Hc & Hre).
  exists r', ev, po'. split; [reflexivity|]. split; [exact Hg|].
  split; [exact Hc|exact Hre].
Defined.

Definition pools_fresh (r : Registry) : Prop :=
  forall k po, map_get k (threadPools r) = Some po -> ids_fresh (sys po).

Lemma exec_ids_fresh ls : forall s s' ev,
  ids_fresh s -> exec ls s = Some (s', ev) -> ids_fresh s'.
Proof.
  induction ls as [|l ls IH]; intros s s' ev Hf He; simpl in He.
  - by simplify_eq.
  - destruct (step l s) as [[s1 e1]|] eqn:Hs; [|done].
    destruct (exec ls s1) as [[s2 e2]|] eqn:He2; [|done]. simplify_eq.
    eapply IH; [|done]. by eapply step_ids_fresh.
Qed.

Lemma map_get_set {V} (k k' : mapkey) (v : V) m :
  map_get k' (map_set k v m) = if decide (k' = k) then Some v else map_get k' m.
Proof.
  destruct (decide (k' = k)) as [->|Hne].
  - apply map_get_set_eq.
  - by apply map_get_set_ne.
Qed.

Lemma set_pools_fresh k po r :
  ids_fresh (sys po) -> pools_fresh r ->
  pools_fresh {| threadPools := map_set k po (threadPools r);
                 nextRef := S (nextRef r) |}.
Proof.
  intros Hf Hr k' po' Hg. simpl in Hg. rewrite map_get_set in Hg.
  destruct (decide (k' = k)); [by simplify_eq|by eapply Hr].
Qed.

Lemma update_pools_fresh k po s r :
  ids_fresh s -> pools_fresh r -> pools_fresh (update_pool k po s r).
Proof.
  intros Hf Hr k' po' Hg. unfold update_pool in Hg. simpl in Hg.
  rewrite map_get_set in Hg.
  destruct (decide (k' = k)); [by simplify_eq|by eapply Hr].
Qed.

Lemma init_ids_fresh p : ids_fresh (init p).
Proof. intros e Hin. by apply elem_of_nil in Hin. Qed.

Lemma createThreadPool_fresh n o sp r :
  pools_fresh r -> pools_fresh (snd (fst (createThreadPool n o sp r))).
Proof.
  intros Hr. unfold createThreadPool.
  destruct (if opt_preload o then _ else _) as [s1 ev1] eqn:E. simpl.
  apply set_pools_fresh; [|done]. simpl.
  destruct (opt_preload o).
  - eapply (step_ids_fresh (StartThreads true sp)); [apply init_ids_fresh|].
    simpl. by rewrite E.
  - simplify_eq. apply init_ids_fresh.
Qed.

Lemma getPool_fresh n o sp r :
  pools_fresh r ->
  pools_fresh (snd (fst (getPool n o sp r))) /\
  ids_fresh (sys (fst (fst (getPool n o sp r)))).
Proof.
  intros Hr. pose proof (getPool_get n o sp r) as Hg.
  assert (H : pools_fresh (snd (fst (getPool n o sp r)))).
  { unfold getPool. destruct (map_get _ (threadPools r)); [done|].
    by apply createThreadPool_fresh. }
  split; [done|]. by eapply H.
Qed.

Lemma close_and_drain_fresh evs s s3 e3 d :
  ids_fresh s -> close_and_drain evs s = Some (s3, e3, d) -> ids_fresh s3.
Proof.
  rewrite close_and_drain_exec. intros Hf.
  destruct (exec _ s) as [[s3' e3']|] eqn:He; [|done].
  destruct (calls s3' !! _); [|done]. intros H. simplify_eq.
  by eapply exec_ids_fresh.
Qed.

Lemma with_pool_fresh s p : ids_fresh s -> ids_fresh (with_pool s p).
Proof. by destruct s. Qed.

Lemma reachable_pools_fresh r : registry_reachable r -> pools_fresh r.
Proof.
  induction 1 as [|r n o sp _ IH|r n o sp _ IH|r n o jn jd sp _ IH
                  |r k po l s' ev _ IH Hg Hs
                  |r n evs r' st ev Hreach IH Hd
                  |r n evs evs2 sp r' st ev _ IH Hr].
  - intros k po Hg. discriminate.
  - by apply createThreadPool_fresh.
  - unfold getThreadPool. destruct (opt_preload o); [|done].
    pose proof (getPool_fresh n o sp r IH) as [H _].
    by destruct (getPool n o sp r) as [[po r1] e1].
  - rewrite facade_run_eq. simpl.
    destruct (getPool_fresh n o sp r IH) as [H1 H2].
    apply update_pools_fresh; [|done].
    eapply (step_ids_fresh (Run jn jd sp)); [exact H2|].
    simpl. f_equal. apply surjective_pairing.
  - apply update_pools_fresh; [|done].
    eapply step_ids_fresh; [|done]. by eapply IH.
  - unfold destroy in Hd.
    destruct (map_get _ (threadPools r)) as [po|] eqn:Hg; [|by simplify_eq].
    destruct (close_and_drain evs (sys po)) as [[[s3 e3] d]|] eqn:Hcd; [|done].
    eapply close_and_drain_fresh in Hcd; [|by eapply IH].
    destruct d as [|[]|e]; try (simplify_eq; by apply update_pools_fresh).
    destruct (stopThreads s3) as [s4 e4] eqn:Hst.
    rewrite (delete_object_absent
               (update_pool (KString (Js.toUpperCase n)) po s4 r)) in Hd.
    + simplify_eq. intros k' po' Hg'. simpl in Hg'.
      eapply (update_pools_fresh (KString (Js.toUpperCase n)) po s4 r);
        [|exact IH|exact Hg'].
      eapply (step_ids_fresh StopThreads); [exact Hcd|]. simpl. by rewrite Hst.
    + eapply update_pool_string_keys; [done|].
      by apply reachable_keys_ok.
  - unfold reload in Hr.
    destruct (map_get _ (threadPools r)) as [po|] eqn:Hg; [|by simplify_eq].
    destruct (close_and_drain evs (sys po)) as [[[s3 e3] d]|] eqn:Hcd; [|done].
    eapply close_and_drain_fresh in Hcd; [|by eapply IH].
    destruct d as [|[]|e]; try (simplify_eq; by apply update_pools_fresh).
    destruct (stopThreads s3) as [s4 e4] eqn:Hst.
    destruct (startThreads false sp s4) as [s5 e5] eqn:Hsta.
    destruct (exec evs2 s5) as [[s6 e6]|] eqn:He; [|done].
    assert (H6 : ids_fresh s6).
    { eapply exec_ids_fresh; [|done].
      eapply (step_ids_fresh (StartThreads false sp)); [|simpl; by rewrite Hsta].
      eapply (step_ids_fresh StopThreads); [exact Hcd|]. simpl. by rewrite Hst. }
    destruct (calls s6 !! _) as [[| |]|]; simplify_eq;
      apply update_pools_fresh; first [done | by apply with_pool_fresh].
Qed.

Definition touches_stopping (l : label) : bool :=
  match l with StopThreads | KillTimer _ => true | _ => false end.

Lemma step_keeps_stopping l s s' ev :
  step l s = Some (s', ev) -> touches_stopping l = false ->
  stopping s' = stopping s.
Proof.
  intros Hs Hl. step_paths s l Hs; simpl in *; done.
Qed.

Lemma exec_keeps_stopping ls : forall s s' ev,
  exec ls s = Some (s', ev) ->
  forallb (fun l => negb (touches_stopping l)) ls = true ->
  stopping s' = stopping s.
Proof.
  induction ls as [|l ls IH]; intros s s' ev He Hall; simpl in He.
  - by simplify_eq.
  - destruct (step l s) as [[s1 e1]|] eqn:Hs; [|done].
    destruct (exec ls s1) as [[s2 e2]|] eqn:He2; [|done]. simplify_eq.
    simpl in Hall. apply andb_true_iff in Hall as [Hl Hall].
    rewrite (IH _ _ _ He2 Hall).
    eapply step_keeps_stopping; [done|]. by destruct (touches_stopping l).
Qed.

Lemma handshakes_plain n : forall tid k,
  forallb (fun l => negb (touches_stopping l)) (handshakes tid k n) = true /\
  forallb (fun l => negb (is_Open l)) (handshakes tid k n) = true.
Proof. induction n as [|n IH]; intros tid k; simpl; [done|]. apply IH. Qed.

Lemma count_starts_app a b :
  count_starts (a ++ b) = (count_starts a + count_starts b)%nat.
Proof. induction a as [|[] a IH]; simpl; lia. Qed.

(** X17.  Hot reload of an idle pool: when no job is running, [reload] drains
    at once, hands the free Threads to the 1 s timer that stops them,
    starts [minThreads] fresh ones, opens the pool and counts the
    reload; its promise resolves with the pool once the new Workers have
    reported. *)
Theorem reload_replaces_free_threads poolName r po :
  registry_reachable r ->
  map_get (KString (Js.toUpperCase poolName)) (threadPools r) = Some po ->
  noJobsRunning (pool (sys po)) = true ->
  let s := sys po in
  let k := Z.to_nat (minThreads (pool s)) in
  exists r' po' ev,
    reload poolName [] (handshakes (nextThreadId s) (length (resuming s)) k) true r
      = Some (r', SPool po', ev) /\
    map_get (KString (Js.toUpperCase poolName)) (threadPools r') = Some po' /\
    closed (pool (sys po')) = false /\
    reloads (pool (sys po')) = reloads (pool s) + 1 /\
    freeThreads (pool (sys po')) = new_threads (nextThreadId s) (now s) k /\
    totalThreads (pool (sys po')) = Z.of_nat k /\
    stopping (sys po') = stopping s ++ [(now s + 1000, freeThreads (pool s))] /\
    count_starts ev = k.
Proof.
  intros Hreach Hg Hidle s k.
  pose proof (reachable_pools_fresh r Hreach _ _ Hg) as Hf. fold s in Hf.
  unfold reload. rewrite Hg. fold s.
  unfold noJobsRunning in Hidle. fold s in Hidle.
  set (s3 := with_calls (with_pool s (close (pool s)))
               (calls s ++ [Js.Resolved This])).
  assert (Hcd : close_and_drain [] s
                = Some (s3, [EEmit "poolClose"; EEmit "poolDrain"], Js.Resolved This)).
  { unfold close_and_drain, s3. clearbody s. clear -Hidle.
    destruct s as [[] ? ? ? ? ? ? ? ? ? ?]. simpl in *.
    unfold andThen, emit, drain, andThen, emit, modify, noJobsRunning. simpl.
    rewrite Hidle. simpl. by rewrite list_lookup_middle. }
  rewrite Hcd.
  set (s4 := fst (stopThreads s3)).
  assert (Hst : stopThreads s3 = (s4, [])).
  { unfold s4, s3. clearbody s. clear.
    by destruct s as [[] ? ? ? ? ? ? ? ? ? ?]. }
  rewrite Hst.
  set (s4' := with_calls s4 (calls s4 ++ [Js.Pending])).
  assert (Hf4 : ids_fresh s4').
  { unfold s4', s4, s3. clearbody s. clear -Hf.
    by destruct s as [[] ? ? ? ? ? ? ? ? ? ?]. }
  destruct (startThreads_loop k s4' 0 (length (calls s4)) Hf4)
    as (s6 & e6 & Hex & Hfr & Htt & Hcl & Hcn).
  { unfold k, s4', s4, s3. clearbody s. clear.
    destruct s as [[] ? ? ? ? ? ? ? ? ? ?]. simpl. lia. }
  assert (Hids : nextThreadId s4' = nextThreadId s /\
                 length (resuming s4') = length (resuming s) /\
                 now s4' = now s /\
                 freeThreads (pool s4') = [] /\ totalThreads (pool s4') = 0 /\
                 reloads (pool s4') = reloads (pool s) /\
                 stopping s4' = stopping s ++ [(now s + 1000, freeThreads (pool s))]).
  { unfold s4', s4, s3. clearbody s. clear.
    by destruct s as [[] ? ? ? ? ? ? ? ? ? ?]. }
  destruct Hids as (Hi1 & Hi2 & Hi3 & Hi4 & Hi5 & Hi6 & Hi7).
  rewrite Hi1, Hi2 in Hex. rewrite Hi1, Hi3, Hi4 in Hfr. rewrite Hi5 in Htt.
  assert (Hsta : startThreads false true s4
                 = startThreads_from 0 (length (calls s4)) false true s4').
  { unfold startThreads, andThen, modify. cbn [fst snd]. fold s4'.
    by destruct (startThreads_from 0 (length (calls s4)) false true s4'). }
  destruct (startThreads false true s4) as [s5 e5] eqn:Hs5.
  rewrite <- Hsta in Hex.
  destruct (exec _ s5) as [[s6' e6']|] eqn:He; [|done].
  injection Hex as -> <-.
  assert (Hcn' : count_starts (e5 ++ e6' ++ [EEmit "poolOpen"]) = k).
  { rewrite app_assoc, count_starts_app. simpl. lia. }
  assert (Hc6 : calls s6 !! length (calls s4) = Some (Js.Resolved This)).
  { rewrite Hcl. unfold s4'.
    replace (calls (with_calls s4 (calls s4 ++ [Js.Pending])))
      with (calls s4 ++ [Js.Pending]) by (by destruct s4).
    rewrite alter_snoc_pending. by rewrite list_lookup_middle. }
  rewrite Hc6.
  destruct (handshakes_plain k (nextThreadId s) (length (resuming s))) as [Hp1 Hp2].
  assert (Hex : exec (StartThreads false true ::
                      handshakes (nextThreadId s) (length (resuming s)) k) s4
                = Some (s6, e5 ++ e6')).
  { cbn [exec step]. by rewrite Hs5, He. }
  pose proof (exec_keeps_stopping _ _ _ _ Hex) as Hstop.
  specialize (Hstop Hp1).
  apply exec_keeps_reloads in Hex as [Hre _].
  eexists _, _, _. split; [reflexivity|].
  unfold update_pool. simpl. rewrite map_get_set_eq.
  split; [reflexivity|]. simpl.
  assert (H4 : reloads (pool s4) = reloads (pool s) /\
               stopping s4 = stopping s ++ [(now s + 1000, freeThreads (pool s))]).
  { unfold s4, s3. clearbody s. clear.
    by destruct s as [[] ? ? ? ? ? ? ? ? ? ?]. }
  destruct H4 as [H4a H4b].
  destruct s6 as [[] ? ? ? ? ? ? ? ? ? ?]. simpl in *.
  repeat split; try done; try lia; try congruence.
Qed.

(** What happens to the pool under key [k], label after label. *)
Definition pool_steps (k : mapkey) (ls : list label) (r : Registry) : Registry :=
  foldl (fun r l =>
           match map_get k (threadPools r) with
           | Some po =>
               match step l (sys po) with
               | Some (s', _) => update_pool k po s' r
               | None => r
               end
           | None => r
           end) r ls.

Lemma pool_steps_reachable k ls : forall r,
  registry_reachable r -> registry_reachable (pool_steps k ls r).
Proof.
  induction ls as [|l ls IH]; intros r Hr; simpl; [done|].
  apply IH. destruct (map_get k (threadPools r)) as [po|] eqn:Hg; [|done].
  destruct (step l (sys po)) as [[s' ev]|] eqn:Hs; [|done].
  by eapply rr_step.
Qed.

(** The registry whose pool ORDER has served one job and is idle. *)
Definition idle_registry : Registry :=
  pool_steps (KString "ORDER") one_free_thread order_registry.

Lemma reload_replaces_free_threads_witness :
  registry_reachable idle_registry /\
  exists r' po' ev,
    reload "order" [] [Ready 2; Resume 0 true] true idle_registry
      = Some (r', SPool po', ev) /\
    freeThreads (pool (sys po')) = [Some {| id := 2; createdAt := 0 |}] /\
    stopping (sys po') = [(1000, [Some {| id := 1; createdAt := 0 |}])].
Proof.
  assert (H1 : registry_reachable idle_registry).
  { apply pool_steps_reachable.
    apply (rr_create empty_registry "ORDER" default_options true), rr_empty. }
  split; [exact H1|].
  assert (Hg : map_get (KString (Js.toUpperCase "order")) (threadPools idle_registry)
               = Some {| ref := 0; sys := after one_free_thread order_pool |})
    by (vm_compute; reflexivity).
  assert (Hi : noJobsRunning (pool (after one_free_thread order_pool)) = true)
    by (vm_compute; reflexivity).
  destruct (reload_replaces_free_threads "order" idle_registry _ H1 Hg Hi)
    as (r' & po' & ev & Hr & _ & _ & _ & Hfr & _ & Hst & _).
  exists r', po', ev. split; [exact Hr|]. split; [exact Hfr|exact Hst].
Defined.

(** * The WASM interop adapter *)

Module Wasm.

(** ** Numbers and strings *)

(** A JavaScript number: [NaN], an infinity, or the finite value
    [m * 10^e].  Finite doubles are taken as the decimals their text
    denotes: the rounding of long literals to 53 bits, overflow and the
    sign of zero are not modelled. *)
Inductive number :=
| NaN
| Infinity (negative : bool)
| Dec (m e : Z).

Definition isNaN (x : number) : bool :=
  match x with NaN => true | _ => false end.

(** Strips the zeros at the end of [m] while the exponent is negative. *)
Fixpoint strip_zeros (fuel : nat) (m e : Z) : number :=
  match fuel with
  | O => Dec m e
  | S f => if (e <? 0) && (m mod 10 =? 0) then strip_zeros f (m / 10) (e + 1)
           else Dec m e
  end.

(** The number [m * 10^e], with integers in the form [Dec z 0]. *)
Definition decimal (m e : Z) : number :=
  if m =? 0 then Dec 0 0
  else if 0 <=? e then Dec (m * 10 ^ e) 0
  else strip_zeros (Z.to_nat (- e)) m e.

(** White space and line terminators of ASCII text. *)
Definition is_space (c : ascii) : bool :=
  let n := nat_of_ascii c in
  ((9 <=? n)%nat && (n <=? 13)%nat) || (n =? 32)%nat.

Fixpoint trimStart (s : string) : string :=
  match s with
  | String c s' => if is_space c then trimStart s' else s
  | EmptyString => s
  end.

Definition digit_value (c : ascii) : option Z :=
  let n := nat_of_ascii c in
  if (48 <=? n)%nat && (n <=? 57)%nat then Some (Z.of_nat (n - 48)) else None.

Definition hex_value (c : ascii) : option Z :=
  let n := nat_of_ascii c in
  if (48 <=? n)%nat && (n <=? 57)%nat then Some (Z.of_nat (n - 48))
  else if (97 <=? n)%nat && (n <=? 102)%nat then Some (Z.of_nat (n - 87))
  else if (65 <=? n)%nat && (n <=? 70)%nat then Some (Z.of_nat (n - 55))
  else None.

(** Reads the longest run of digits at the start of [s]: the value it
    adds to [acc] in radix [R], and what follows. *)
Fixpoint read_digits (dv : ascii -> option Z) (R : Z) (s : string) (acc : Z)
    : Z * string :=
  match s with
  | String c s' =>
      match dv c with
      | Some d => read_digits dv R s' (acc * R + d)
      | None => (acc, s)
      end
  | EmptyString => (acc, s)
  end.

Definition starts_with (dv : ascii -> option Z) (s : string) : bool :=
  match s with
  | String c _ => bool_decide (is_Some (dv c))
  | EmptyString => false
  end.

(** An optional sign at the start of [s]. *)
Definition read_sign (s : string) : bool * string :=
  match s with
  | String c r =>
      if bool_decide (c = "-"%char) then (true, r)
      else if bool_decide (c = "+"%char) then (false, r)
      else (false, s)
  | EmptyString => (false, s)
  end.

Definition signed (neg : bool) (z : Z) : Z := if neg then - z else z.

Fixpoint is_prefix (p s : string) : bool :=
  match p, s with
  | EmptyString, _ => true
  | String a p', String b s' => bool_decide (a = b) && is_prefix p' s'
  | String _ _, EmptyString => false
  end.

Fixpoint drop_string (n : nat) (s : string) : string :=
  match n, s with
  | S n', String _ s' => drop_string n' s'
  | _, _ => s
  end.

(** [parseInt(v)] without a radix: white space, a sign, an optional
    [0x] that selects radix 16, then the longest run of digits. *)
Definition parseInt (v : string) : number :=
  let '(neg, s) := read_sign (trimStart v) in
  let '(dv, R, s) :=
    if is_prefix "0x" s || is_prefix "0X" s
    then (hex_value, 16, drop_string 2 s)
    else (digit_value, 10, s) in
  if starts_with dv s then Dec (signed neg (fst (read_digits dv R s 0))) 0
  else NaN.

(** The exponent part of a decimal literal at the start of [s], 0 when
    there is none. *)
Definition read_exponent (s : string) : Z :=
  match s with
  | String c r =>
      if bool_decide (c = "e"%char) || bool_decide (c = "E"%char) then
        let '(neg, r') := read_sign r in
        if starts_with digit_value r'
        then signed neg (fst (read_digits digit_value 10 r' 0))
        else 0
      else 0
  | EmptyString => 0
  end.

(** [parseFloat(v)]: white space, then the longest prefix that is a
    decimal literal. *)
Definition parseFloat (v : string) : number :=
  let '(neg, s) := read_sign (trimStart v) in
  if is_prefix "Infinity" s then Infinity neg
  else
    let '(ip, s1) := read_digits digit_value 10 s 0 in
    let has_ip := starts_with digit_value s in
    if is_prefix "." s1 then
      let r := drop_string 1 s1 in
      let '(m, s2) := read_digits digit_value 10 r ip in
      if has_ip || starts_with digit_value r then
        decimal (signed neg m)
          (read_exponent s2 - Z.of_nat (String.length r - String.length s2))
      else NaN
    else if has_ip then decimal (signed neg ip) (read_exponent s1)
    else NaN.

(** The decimal digits of [n >= 0] in front of [acc]. *)
Fixpoint digits_of (fuel : nat) (n : Z) (acc : string) : string :=
  match fuel with
  | O => acc
  | S f =>
      let acc' := String (ascii_of_nat (48 + Z.to_nat (n mod 10))) acc in
      if n <? 10 then acc' else digits_of f (n / 10) acc'
  end.

Definition nat_string (n : Z) : string :=
  digits_of (S (Z.to_nat (Z.log2 n))) n "".

Fixpoint zeros (n : nat) : string :=
  match n with
  | O => ""
  | S n' => String "0" (zeros n')
  end.

(** [s] without the zeros at its end, and how many there were. *)
Fixpoint drop_zeros (s : string) : string :=
  match s with
  | EmptyString => ""
  | String c s' =>
      match drop_zeros s' with
      | EmptyString => if bool_decide (c = "0"%char) then "" else String c ""
      | r => String c r
      end
  end.

Fixpoint take_string (n : nat) (s : string) : string :=
  match n, s with
  | S n', String c s' => String c (take_string n' s')
  | _, _ => ""
  end.

(** [Number.prototype.toString()]: with [k] significant digits and the
    decimal point after the [n]-th of them. *)
Definition number_toString (x : number) : string :=
  match x with
  | NaN => "NaN"
  | Infinity neg => if neg then "-Infinity" else "Infinity"
  | Dec m e =>
      if m =? 0 then "0"
      else
        let all := nat_string (Z.abs m) in
        let ds := drop_zeros all in
        let k := Z.of_nat (String.length ds) in
        let n := Z.of_nat (String.length all) + e in
        (if m <? 0 then "-" else "") +:+
        (if (k <=? n) && (n <=? 21) then ds +:+ zeros (Z.to_nat (n - k))
         else if (0 <? n) && (n <=? 21) then
           take_string (Z.to_nat n) ds +:+ "." +:+ drop_string (Z.to_nat n) ds
         else if (-6 <? n) && (n <=? 0) then "0." +:+ zeros (Z.to_nat (- n)) +:+ ds
         else
           let ex := (if n - 1 <? 0 then "-" else "+") +:+ nat_string (Z.abs (n - 1)) in
           match ds with
           | String d EmptyString => String d ("e" +:+ ex)
           | String d rest => String d ("." +:+ rest +:+ "e" +:+ ex)
           | EmptyString => ""
           end)
  end.

(** [/true/i.test(s)] and [/false/i.test(s)]: the word occurs in [s],
    in any mix of cases. *)
Fixpoint prefix_ci (p s : string) : bool :=
  match p, s with
  | EmptyString, _ => true
  | String a p', String b s' =>
      bool_decide (Js.upper_ascii a = Js.upper_ascii b) && prefix_ci p' s'
  | String _ _, EmptyString => false
  end.

Fixpoint test_ci (p s : string) : bool :=
  prefix_ci p s ||
  match s with
  | String _ s' => test_ci p s'
  | EmptyString => false
  end.

(** ** Values *)

#[warnings="-register-all"]
Inductive jsval :=
| VUndefined
| VNull
| VBool (b : bool)
| VNum (x : number)
| VStr (s : string)
| VObj (fields : list (string * jsval))   (* own enumerable properties, in order *)
| VFun.

(** [parse(v)] for a string [v] or [undefined] ([None]). *)
Definition parse (v : option string) : jsval :=
  let s := default "undefined" v in
  if negb (isNaN (parseInt s)) then VNum (parseInt s)
  else if negb (isNaN (parseFloat s)) then VNum (parseFloat s)
  else if test_ci "true" s then VBool true
  else if test_ci "false" s then VBool false
  else match v with Some s => VStr s | None => VUndefined end.

Definition truthy (v : jsval) : bool :=
  match v with
  | VUndefined | VNull => false
  | VBool b => b
  | VNum NaN => false
  | VNum (Infinity _) => true
  | VNum (Dec m _) => negb (m =? 0)
  | VStr s => negb (bool_decide (s = ""))
  | VObj _ | VFun => true
  end.

(** [typeof v] is 'string', 'number' or 'boolean'. *)
Definition scalar (v : jsval) : bool :=
  match v with
  | VBool _ | VNum _ | VStr _ => true
  | _ => false
  end.

(** [v.toString()] for a scalar [v]. *)
Definition toString (v : jsval) : string :=
  match v with
  | VStr s => s
  | VBool b => if b then "true" else "false"
  | VNum x => number_toString x
  | _ => ""
  end.

Fixpoint chars_from (i : Z) (s : string) : list (string * jsval) :=
  match s with
  | EmptyString => []
  | String c s' => (nat_string i, VStr (String c "")) :: chars_from (i + 1) s'
  end.

(** [Object.entries(v)]; [None] is the TypeError for [undefined] and
    [null]. *)
Definition entries (v : jsval) : option (list (string * jsval)) :=
  match v with
  | VUndefined | VNull => None
  | VObj fs => Some fs
  | VStr s => Some (chars_from 0 s)
  | VBool _ | VNum _ | VFun => Some []
  end.

Fixpoint field (name : string) (fs : list (string * jsval)) : jsval :=
  match fs with
  | [] => VUndefined
  | (k, v) :: fs' => if bool_decide (k = name) then v else field name fs'
  end.

(** [v.name] for the names [port] and [args]; [None] is the TypeError
    for [undefined] and [null]. *)
Definition get (v : jsval) (name : string) : option jsval :=
  match v with
  | VUndefined | VNull => None
  | VObj fs => Some (field name fs)
  | _ => Some VUndefined
  end.

(** [convert] of [clean]. *)
Definition convert (v : jsval) : outcome (list (list string)) :=
  match entries v with
  | None => Throw "TypeError"
  | Some es =>
      Return ((fun kv => [kv.1; toString kv.2]) <$> filter (fun kv => scalar kv.2 = true) es)
  end.

Definition clean (obj : jsval) : outcome (list (list string)) :=
  match get obj "port" with
  | None => Throw "TypeError"
  | Some port =>
      if truthy port then
        match get obj "args" with
        | Some args => if truthy args then convert args else convert obj
        | None => Throw "TypeError"
        end
      else convert obj
  end.

(** The property name of a row [[k, v]]: a missing [k] is 'undefined'. *)
Definition row_key (row : list string) : string :=
  default "undefined" (row !! 0%nat).

(** The object [{ [k]: parse(v) }] of a row [[k, v]]. *)
Definition row_object (row : list string) : gmap string jsval :=
  {[ row_key row := parse (row !! 1%nat) ]}.

(** [lift], on the rows the exported function returned: [reduce]
    without an initial value throws on an empty array.  An object is
    taken as the finite map of its properties. *)
Definition lift (rows : list (list string)) : outcome (gmap string jsval) :=
  match row_object <$> rows with
  | [] => Throw "TypeError"
  | o :: os => Return (foldl (fun a b => b ∪ a) o os)
  end.

(** [callWasmFunction(fn, obj)], where [wasm] is the exported function
    [fn] on string arrays; [lower] and [liftArray] copy the arrays into
    and out of WASM memory. *)
Definition callWasmFunction (wasm : list (list string) -> list (list string))
    (obj : jsval) : outcome (gmap string jsval) :=
  match clean obj with
  | Throw e => Throw e
  | Return kv => lift (wasm kv)
  end.

End Wasm.

(** ** Properties of the adapter *)

Section WasmFacts.
Import Wasm.

Lemma digit_char_value (d : Z) :
  0 <= d < 10 ->
  digit_value (ascii_of_nat (48 + Z.to_nat d)) = Some d /\
  is_space (ascii_of_nat (48 + Z.to_nat d)) = false /\
  ascii_of_nat (48 + Z.to_nat d) <> "-"%char /\
  ascii_of_nat (48 + Z.to_nat d) <> "+"%char /\
  (ascii_of_nat (48 + Z.to_nat d) = "0"%char -> d = 0).
Proof.
  intros Hd.
  assert (H : d = 0 \/ d = 1 \/ d = 2 \/ d = 3 \/ d = 4 \/ d = 5 \/ d = 6 \/
              d = 7 \/ d = 8 \/ d = 9) by lia.
  destruct H as [->|[->|[->|[->|[->|[->|[->|[->|[->| ->]]]]]]]]];
    vm_compute; repeat split; try discriminate; done.
Qed.

Lemma append_nil_l (a : string) : "" +:+ a = a.
Proof. reflexivity. Qed.

Lemma append_cons (c : ascii) (a b : string) : String c a +:+ b = String c (a +:+ b).
Proof. reflexivity. Qed.

Lemma append_assoc (a b c : string) : (a +:+ b) +:+ c = a +:+ b +:+ c.
Proof.
  induction a as [|x a IH]; [done|].
  change (String x ((a +:+ b) +:+ c) = String x (a +:+ b +:+ c)). by rewrite IH.
Qed.

Lemma length_append (a b : string) :
  String.length (a +:+ b) = (String.length a + String.length b)%nat.
Proof.
  induction a as [|x a IH]; [done|].
  change (S (String.length (a +:+ b)) = S (String.length a + String.length b)).
  by rewrite IH.
Qed.

Lemma append_nil_r (a : string) : a +:+ "" = a.
Proof.
  induction a as [|x a IH]; [done|].
  change (String x (a +:+ "") = String x a). by rewrite IH.
Qed.

Lemma digits_of_app f : forall n acc,
  digits_of f n acc = digits_of f n "" +:+ acc.
Proof.
  induction f as [|f IH]; intros n acc; simpl; [done|].
  destruct (n <? 10); [done|].
  rewrite (IH _ (String _ acc)), (IH _ (String _ "")).
  by rewrite append_assoc.
Qed.

Lemma digits_of_read : forall f n tail,
  0 <= n < 2 ^ Z.of_nat (S f) ->
  exists k, 0 < k /\ 10 ^ (k - 1) <= Z.max n 1 < 10 ^ k /\
    k = Z.of_nat (String.length (digits_of (S f) n "")) /\
    forall a, read_digits digit_value 10 (digits_of (S f) n tail) a
              = read_digits digit_value 10 tail (a * 10 ^ k + n).
Proof.
  assert (Hsmall : forall f n tail, 0 <= n < 10 ->
    exists k, 0 < k /\ 10 ^ (k - 1) <= Z.max n 1 < 10 ^ k /\
      k = Z.of_nat (String.length (digits_of (S f) n "")) /\
      forall a, read_digits digit_value 10 (digits_of (S f) n tail) a
                = read_digits digit_value 10 tail (a * 10 ^ k + n)).
  { intros f n tail Hn.
    assert (E : (n <? 10) = true) by (apply Z.ltb_lt; lia).
    cbn [digits_of]. rewrite E.
    exists 1. split; [lia|].
    split; [change (10 ^ (1 - 1)) with 1; change (10 ^ 1) with 10; lia|].
    split; [done|]. intros a. cbn [read_digits].
    rewrite Z.mod_small by lia.
    destruct (digit_char_value n) as [-> _]; [lia|]. by f_equal. }
  intros f. induction f as [|f IH]; intros n tail Hn.
  - apply Hsmall. change (2 ^ Z.of_nat 1) with 2 in Hn. lia.
  - destruct (Z.lt_ge_cases n 10) as [E|E]; [apply Hsmall; lia|].
    assert (E' : (n <? 10) = false) by (apply Z.ltb_ge; lia).
    remember (S f) as f' eqn:Hf'.
    cbn [digits_of]. rewrite E'.
    pose proof (Z.div_mod n 10 ltac:(lia)) as Hdm.
    pose proof (Z.mod_pos_bound n 10 ltac:(lia)) as Hm.
    destruct (IH (n / 10) (String (ascii_of_nat (48 + Z.to_nat (n mod 10))) tail))
      as (k & Hk & Hb & Hl & Hr).
    { rewrite Nat2Z.inj_succ, Z.pow_succ_r in Hn by lia. lia. }
    exists (k + 1). split; [lia|].
    assert (H10 : 10 ^ (k + 1) = 10 * 10 ^ k) by (rewrite Z.pow_add_r; lia).
    assert (H10' : 10 ^ k = 10 * 10 ^ (k - 1)).
    { replace k with (k - 1 + 1) at 1 by lia. rewrite Z.pow_add_r; lia. }
    split; [replace (k + 1 - 1) with k by lia; lia|].
    split.
    { rewrite (digits_of_app f'), length_append.
      change (String.length (String _ "")) with 1%nat. lia. }
    intros a. rewrite Hr. cbn [read_digits].
    destruct (digit_char_value (n mod 10)) as [-> _]; [lia|]. f_equal. lia.
Qed.

Lemma nat_string_fuel n : 0 <= n -> 0 <= n < 2 ^ Z.of_nat (S (Z.to_nat (Z.log2 n))).
Proof.
  intros Hn. rewrite Nat2Z.inj_succ, Z2Nat.id by apply Z.log2_nonneg.
  destruct (Z.eq_dec n 0) as [->|Hne]; [done|].
  pose proof (Z.log2_spec n). lia.
Qed.

Lemma nat_string_read n tail :
  0 <= n ->
  exists k, 0 < k /\ 10 ^ (k - 1) <= Z.max n 1 < 10 ^ k /\
    k = Z.of_nat (String.length (nat_string n)) /\
    forall a, read_digits digit_value 10 (nat_string n +:+ tail) a
              = read_digits digit_value 10 tail (a * 10 ^ k + n).
Proof.
  intros Hn. unfold nat_string. rewrite <- digits_of_app.
  apply digits_of_read, nat_string_fuel, Hn.
Qed.

(** A character that starts a decimal number. *)
Definition leading (c : ascii) : Prop :=
  is_Some (digit_value c) /\ is_space c = false /\
  c <> "-"%char /\ c <> "+"%char.

Lemma digits_of_head : forall f n acc,
  0 <= n < 2 ^ Z.of_nat (S f) ->
  exists c t, digits_of (S f) n acc = String c t /\ leading c /\
              (c = "0"%char -> n = 0 /\ t = acc).
Proof.
  assert (Hsmall : forall f n acc, 0 <= n < 10 ->
    exists c t, digits_of (S f) n acc = String c t /\ leading c /\
                (c = "0"%char -> n = 0 /\ t = acc)).
  { intros f n acc Hn.
    assert (E : (n <? 10) = true) by (apply Z.ltb_lt; lia).
    cbn [digits_of]. rewrite E. rewrite Z.mod_small by lia.
    destruct (digit_char_value n) as (H1 & H2 & H3 & H4 & H5); [lia|].
    eexists _, _. split; [reflexivity|]. split; [|by auto].
    unfold leading. rewrite H1. eauto. }
  intros f. induction f as [|f IH]; intros n acc Hn.
  - apply Hsmall. change (2 ^ Z.of_nat 1) with 2 in Hn. lia.
  - destruct (Z.lt_ge_cases n 10) as [E|E]; [apply Hsmall; lia|].
    assert (E' : (n <? 10) = false) by (apply Z.ltb_ge; lia).
    remember (S f) as f' eqn:Hf'.
    cbn [digits_of]. rewrite E'.
    pose proof (Z.div_mod n 10 ltac:(lia)) as Hdm.
    pose proof (Z.mod_pos_bound n 10 ltac:(lia)) as Hm.
    destruct (IH (n / 10) (String (ascii_of_nat (48 + Z.to_nat (n mod 10))) acc))
      as (c & t & -> & Hl & Hz).
    { rewrite Nat2Z.inj_succ, Z.pow_succ_r in Hn by lia. lia. }
    exists c, t. split; [done|]. split; [done|].
    intros Hc. destruct (Hz Hc) as [Hz' _]. lia.
Qed.

Lemma nat_string_head n :
  0 <= n ->
  exists c t, nat_string n = String c t /\ leading c /\
              (c = "0"%char -> n = 0 /\ t = "").
Proof. intros Hn. apply digits_of_head, nat_string_fuel, Hn. Qed.

Lemma trimStart_app ws s : trimStart ws = "" -> trimStart (ws +:+ s) = trimStart s.
Proof.
  induction ws as [|c ws IH]; intros Hws; [done|].
  cbn [trimStart] in Hws. change (String c ws +:+ s) with (String c (ws +:+ s)).
  cbn [trimStart]. destruct (is_space c); [by apply IH|done].
Qed.

Lemma parseInt_leading ws sg neg n rest :
  trimStart ws = "" ->
  (sg, neg) ∈ [("", false); ("+", false); ("-", true)] ->
  0 <= n ->
  starts_with digit_value rest = false ->
  (n = 0 -> is_prefix "x" rest || is_prefix "X" rest = false) ->
  parseInt (ws +:+ sg +:+ nat_string n +:+ rest) = Dec (signed neg n) 0.
Proof.
  intros Hws Hsg Hn Hrest Hhex.
  destruct (nat_string_head n Hn) as (c & t & Hc & (Hd & Hsp & Hm & Hp) & Hz).
  destruct (nat_string_read n rest Hn) as (k & _ & _ & _ & Hr).
  specialize (Hr 0). rewrite Z.mul_0_l, Z.add_0_l in Hr.
  assert (Hrd : read_digits digit_value 10 rest n = (n, rest)).
  { destruct rest as [|x rest]; [done|]. cbn [read_digits].
    cbn [starts_with] in Hrest. apply bool_decide_eq_false in Hrest.
    destruct (digit_value x); [|done]. exfalso. apply Hrest. eauto. }
  rewrite Hrd in Hr.
  assert (Hbody : forall b,
    (let '(dv, R, s) :=
       if is_prefix "0x" (nat_string n +:+ rest) || is_prefix "0X" (nat_string n +:+ rest)
       then (hex_value, 16, drop_string 2 (nat_string n +:+ rest))
       else (digit_value, 10, nat_string n +:+ rest) in
     if starts_with dv s then Dec (signed b (fst (read_digits dv R s 0))) 0
     else NaN) = Dec (signed b n) 0).
  { intros b.
    assert (Hnohex : is_prefix "0x" (nat_string n +:+ rest)
                     || is_prefix "0X" (nat_string n +:+ rest) = false).
    { rewrite Hc. change (String c t +:+ rest) with (String c (t +:+ rest)).
      cbn [is_prefix]. destruct (decide ("0"%char = c)) as [<-|Hne].
      - destruct (Hz eq_refl) as [Hn0 ->]. specialize (Hhex Hn0).
        rewrite !bool_decide_eq_true_2 by done.
        change ("" +:+ rest) with rest. simpl.
        cbn [is_prefix] in Hhex. destruct rest as [|x rest]; [done|].
        by rewrite !andb_true_r in Hhex |- *.
      - by rewrite !bool_decide_eq_false_2. }
    rewrite Hnohex, Hr. cbn [fst].
    rewrite Hc. change (String c t +:+ rest) with (String c (t +:+ rest)).
    cbn [starts_with]. by rewrite bool_decide_eq_true_2. }
  unfold parseInt. rewrite trimStart_app by done.
  rewrite !elem_of_cons, elem_of_nil in Hsg.
  assert (Hts : trimStart (nat_string n +:+ rest) = nat_string n +:+ rest).
  { rewrite Hc. change (String c t +:+ rest) with (String c (t +:+ rest)).
    cbn [trimStart]. by rewrite Hsp. }
  assert (Hrs : read_sign (nat_string n +:+ rest) = (false, nat_string n +:+ rest)).
  { rewrite Hc. change (String c t +:+ rest) with (String c (t +:+ rest)).
    cbn [read_sign]. by rewrite !bool_decide_eq_false_2. }
  destruct Hsg as [Hsg|[Hsg|[Hsg|[]]]]; injection Hsg as -> ->.
  - change ("" +:+ nat_string n +:+ rest) with (nat_string n +:+ rest).
    rewrite Hts, Hrs. apply Hbody.
  - change ("+" +:+ nat_string n +:+ rest) with (String "+" (nat_string n +:+ rest)).
    cbn [trimStart]. change (is_space "+") with false. cbv iota.
    cbn [read_sign]. rewrite bool_decide_eq_false_2 by done.
    rewrite bool_decide_eq_true_2 by done. apply Hbody.
  - change ("-" +:+ nat_string n +:+ rest) with (String "-" (nat_string n +:+ rest)).
    cbn [trimStart]. change (is_space "-") with false. cbv iota.
    cbn [read_sign]. rewrite bool_decide_eq_true_2 by done. apply Hbody.
Qed.

Lemma parse_Some s :
  parse (Some s)
  = if negb (isNaN (parseInt s)) then VNum (parseInt s)
    else if negb (isNaN (parseFloat s)) then VNum (parseFloat s)
    else if test_ci "true" s then VBool true
    else if test_ci "false" s then VBool false
    else VStr s.
Proof. reflexivity. Qed.

Lemma parse_int_text sg neg n :
  (sg, neg) ∈ [("", false); ("+", false); ("-", true)] ->
  0 <= n ->
  parse (Some ("" +:+ sg +:+ nat_string n +:+ "")) = VNum (Dec (signed neg n) 0).
Proof.
  intros Hsg Hn. rewrite parse_Some.
  by rewrite (parseInt_leading "" sg neg n "").
Qed.



Lemma drop_zeros_length s : (String.length (drop_zeros s) <= String.length s)%nat.
Proof.
  induction s as [|c s IH]; [done|]. cbn [drop_zeros].
  destruct (drop_zeros s) as [|c' r].
  - destruct (bool_decide (c = "0"%char)); simpl; lia.
  - simpl in *. lia.
Qed.

Lemma drop_zeros_zeros s :
  drop_zeros s +:+ zeros (String.length s - String.length (drop_zeros s)) = s.
Proof.
  induction s as [|c s IH]; [done|]. cbn [drop_zeros].
  pose proof (drop_zeros_length s) as Hl.
  destruct (drop_zeros s) as [|c' r].
  - rewrite append_nil_l in IH. cbn [String.length] in IH.
    rewrite Nat.sub_0_r in IH.
    destruct (bool_decide_reflect (c = "0"%char)) as [->|Hc].
    + rewrite append_nil_l. cbn [String.length]. rewrite Nat.sub_0_r.
      cbn [zeros]. by rewrite IH.
    + rewrite append_cons, append_nil_l. cbn [String.length Nat.sub].
      rewrite Nat.sub_0_r. by rewrite IH.
  - rewrite append_cons. cbn [String.length Nat.sub] in IH |- *. by rewrite IH.
Qed.

Lemma drop_zeros_head c t :
  c <> "0"%char -> exists t', drop_zeros (String c t) = String c t'.
Proof.
  intros Hc. cbn [drop_zeros]. destruct (drop_zeros t); [|by eauto].
  rewrite bool_decide_eq_false_2 by done. eauto.
Qed.

Lemma digit_value_range c d : digit_value c = Some d -> 0 <= d < 10.
Proof.
  unfold digit_value. destruct (_ && _) eqn:E; [|done].
  intros [= <-]. apply andb_true_iff in E as [E1 E2].
  apply Nat.leb_le in E1, E2. lia.
Qed.

Lemma parseInt_digit_start sg neg c t :
  (sg, neg) ∈ [("", false); ("-", true)] ->
  leading c ->
  (c = "0"%char -> is_prefix "x" t || is_prefix "X" t = false) ->
  exists z, parseInt (sg +:+ String c t) = Dec (signed neg z) 0 /\
            (starts_with digit_value t = false -> digit_value c = Some z).
Proof.
  intros Hsg (Hd & Hsp & Hm & Hp) Hhex.
  assert (Hbody : forall b, exists z,
    (let '(dv, R, s) :=
       if is_prefix "0x" (String c t) || is_prefix "0X" (String c t)
       then (hex_value, 16, drop_string 2 (String c t))
       else (digit_value, 10, String c t) in
     if starts_with dv s then Dec (signed b (fst (read_digits dv R s 0))) 0
     else NaN) = Dec (signed b z) 0 /\
    (starts_with digit_value t = false -> digit_value c = Some z)).
  { intros b.
    assert (Hnohex : is_prefix "0x" (String c t) || is_prefix "0X" (String c t) = false).
    { cbn [is_prefix]. destruct (decide ("0"%char = c)) as [<-|Hne].
      - specialize (Hhex eq_refl). rewrite !bool_decide_eq_true_2 by done.
        cbn [is_prefix] in Hhex. destruct t as [|x t]; [done|].
        by rewrite !andb_true_r in Hhex |- *.
      - by rewrite !bool_decide_eq_false_2. }
    rewrite Hnohex. cbn [starts_with]. rewrite bool_decide_eq_true_2 by done.
    eexists. split; [reflexivity|]. intros Ht.
    cbn [read_digits]. destruct Hd as [d Hd]. rewrite Hd.
    destruct t as [|x t]; [done|]. cbn [read_digits].
    cbn [starts_with] in Ht. apply bool_decide_eq_false in Ht.
    destruct (digit_value x); [exfalso; apply Ht; eauto|]. done. }
  unfold parseInt.
  rewrite !elem_of_cons, elem_of_nil in Hsg.
  destruct Hsg as [Hsg|[Hsg|[]]]; injection Hsg as -> ->.
  - change ("" +:+ String c t) with (String c t).
    cbn [trimStart]. rewrite Hsp. cbn [read_sign].
    rewrite !bool_decide_eq_false_2 by done. apply Hbody.
  - change ("-" +:+ String c t) with (String "-" (String c t)).
    cbn [trimStart]. change (is_space "-") with false. cbv iota.
    cbn [read_sign]. rewrite bool_decide_eq_true_2 by done. apply Hbody.
Qed.

Lemma take_string_head n c t :
  (0 < n)%nat -> exists t', take_string n (String c t) = String c t'.
Proof. destruct n; [lia|]. simpl. eauto. Qed.

Lemma pow10_digits k j : 0 < k -> 10 ^ (k - 1) < 10 ^ j -> k <= j.
Proof.
  intros Hk H. destruct (Z.le_gt_cases k j) as [|Hgt]; [done|].
  assert (10 ^ j <= 10 ^ (k - 1)); [|lia].
  destruct (Z.le_gt_cases 0 j).
  - apply Z.pow_le_mono_r; lia.
  - rewrite (Z.pow_neg_r 10 j) by lia. apply Z.pow_nonneg. lia.
Qed.

(** The text of a finite number other than 0: an optional minus sign, a
    digit, and then digits, a point or an exponent. *)
Lemma number_toString_shape m e :
  m <> 0 ->
  exists c tt,
    number_toString (Dec m e) = (if m <? 0 then "-" else "") +:+ String c tt /\
    leading c /\
    (c = "0"%char -> is_prefix "x" tt || is_prefix "X" tt = false) /\
    (e = 0 -> 10 ^ 21 <= Z.abs m -> starts_with digit_value tt = false).
Proof.
  intros Hm. unfold number_toString.
  rewrite (proj2 (Z.eqb_neq m 0)) by done.
  destruct (nat_string_head (Z.abs m)) as (c & t & Hc & Hlead & Hz); [lia|].
  assert (Hc0 : c <> "0"%char) by (intros ->; destruct (Hz eq_refl); lia).
  destruct (nat_string_read (Z.abs m) "") as (k' & Hk' & Hb & Hlen & _); [lia|].
  rewrite Z.max_l in Hb by lia.
  destruct (drop_zeros_head c t Hc0) as [t' Hds].
  rewrite Hc, Hds. rewrite Hc in Hlen.
  set (k := Z.of_nat (String.length (String c t'))).
  set (n := Z.of_nat (String.length (String c t)) + e).
  assert (Hbig : e = 0 -> 10 ^ 21 <= Z.abs m -> 21 < n).
  { intros -> Hge. unfold n. rewrite <- Hlen, Z.add_0_r.
    destruct (Z.le_gt_cases k' 21) as [Hle|]; [|lia].
    assert (10 ^ k' <= 10 ^ 21) by (apply Z.pow_le_mono_r; lia). lia. }
  destruct ((k <=? n) && (n <=? 21)) eqn:E1.
  { apply andb_true_iff in E1 as [_ E1]. apply Z.leb_le in E1.
    eexists c, _. split; [reflexivity|]. split; [done|]. split; [done|]. lia. }
  destruct ((0 <? n) && (n <=? 21)) eqn:E2.
  { apply andb_true_iff in E2 as [E2 E3]. apply Z.ltb_lt in E2. apply Z.leb_le in E3.
    destruct (take_string_head (Z.to_nat n) c t') as [t2 ->]; [lia|].
    eexists c, _. split; [reflexivity|]. split; [done|]. split; [done|]. lia. }
  destruct ((-6 <? n) && (n <=? 0)) eqn:E3.
  { apply andb_true_iff in E3 as [_ E3]. apply Z.leb_le in E3.
    exists "0"%char. eexists. split; [reflexivity|].
    split; [repeat split; [by eexists|done|done]|]. split; [done|]. lia. }
  destruct t' as [|d t'].
  - eexists c, _. split; [reflexivity|]. split; [done|]. split; [done|]. done.
  - eexists c, _. split; [reflexivity|]. split; [done|]. split; [done|]. done.
Qed.

Lemma number_toString_integer z :
  z <> 0 -> Z.abs z < 10 ^ 21 ->
  number_toString (Dec z 0) = (if z <? 0 then "-" else "") +:+ nat_string (Z.abs z).
Proof.
  intros Hz Hlt. unfold number_toString.
  rewrite (proj2 (Z.eqb_neq z 0)) by done.
  destruct (nat_string_read (Z.abs z) "") as (k' & Hk' & Hb & Hlen & _); [lia|].
  rewrite Z.max_l in Hb by lia.
  assert (Hk21 : k' <= 21) by (apply pow10_digits; lia).
  pose proof (drop_zeros_length (nat_string (Z.abs z))) as Hdl.
  rewrite Z.add_0_r, <- Hlen.
  rewrite (proj2 (Z.leb_le _ k')) by lia.
  rewrite (proj2 (Z.leb_le k' 21)) by lia. cbn [andb].
  f_equal. rewrite <- (drop_zeros_zeros (nat_string (Z.abs z))) at 3.
  f_equal. f_equal. lia.
Qed.

(** X19.  A number field survives [clean] followed by [parse] exactly when it
    is an integer below 10^21 in absolute value or an infinity: [NaN]
    comes back as the string 'NaN', a fraction comes back without its
    fractional part, and a number that prints with an exponent comes
    back as its first digit. *)
Theorem number_round_trip x :
  parse (Some (toString (VNum x))) = VNum x <->
  (exists b, x = Infinity b) \/ (exists z, x = Dec z 0 /\ Z.abs z < 10 ^ 21).
Proof.
  cbn [toString]. split.
  - destruct x as [|b|m e]; [discriminate|by eauto|]. intros Hp. right.
    destruct (Z.eq_dec m 0) as [->|Hm].
    { injection Hp as <-. by exists 0. }
    destruct (number_toString_shape m e Hm) as (c & tt & Hs & Hl & Hx & Hbig).
    destruct (parseInt_digit_start (if m <? 0 then "-" else "") (m <? 0) c tt)
      as (z & Hz & Hdig); [|done|done|].
    { rewrite !elem_of_cons. destruct (m <? 0); auto. }
    rewrite parse_Some in Hp.
    rewrite Hs, Hz in Hp. cbn [isNaN negb] in Hp.
    injection Hp as Hm1 He. subst e. exists m. split; [done|].
    destruct (Z.lt_ge_cases (Z.abs m) (10 ^ 21)) as [|Hge]; [done|].
    specialize (Hdig (Hbig eq_refl Hge)). apply digit_value_range in Hdig.
    assert (10 < 10 ^ 21) by done.
    destruct (m <? 0); simpl in Hm1; lia.
  - intros [[b ->]|(z & -> & Hz)]; [by destruct b|].
    destruct (Z.eq_dec z 0) as [->|Hz0]; [done|].
    rewrite number_toString_integer by done.
    rewrite <- (append_nil_r (nat_string (Z.abs z))).
    change (?a +:+ ?b +:+ "") with ("" +:+ a +:+ b +:+ "").
    rewrite (parse_int_text (if z <? 0 then "-" else "") (z <? 0)).
    + f_equal. f_equal. destruct (z <? 0) eqn:E; simpl; [apply Z.ltb_lt in E|apply Z.ltb_ge in E]; lia.
    + rewrite !elem_of_cons. destruct (z <? 0); auto.
    + lia.
Qed.

Lemma lift_snoc rows row :
  rows <> [] ->
  lift (rows ++ [row])
  = match lift rows with
    | Return o => Return (row_object row ∪ o)
    | Throw e => Throw e
    end.
Proof.
  intros Hne. unfold lift. rewrite fmap_app.
  destruct rows as [|r rows]; [done|]. cbn [fmap list_fmap app].
  by rewrite foldl_app.
Qed.

Lemma lift_lookup rows : forall o k,
  lift rows = Return o ->
  o !! k = (fun row => parse (row !! 1%nat)) <$>
           last (filter (fun row => row_key row = k) rows).
Proof.
  induction rows as [|row rows IH] using rev_ind; intros o k Hl; [discriminate|].
  assert (Hf : filter (fun row => row_key row = k) [row]
               = if decide (row_key row = k) then [row] else []).
  { rewrite filter_cons. by destruct (decide _). }
  rewrite filter_app, Hf.
  destruct rows as [|r rows].
  - injection Hl as <-. unfold row_object. rewrite filter_nil, app_nil_l.
    destruct (decide (row_key row = k)) as [<-|Hne].
    + by rewrite lookup_singleton_eq.
    + by rewrite lookup_singleton_ne.
  - rewrite lift_snoc in Hl by done.
    destruct (lift (r :: rows)) as [o'|e] eqn:Ho'; [|discriminate].
    injection Hl as <-. specialize (IH o' k eq_refl).
    unfold row_object.
    destruct (decide (row_key row = k)) as [<-|Hne].
    + rewrite last_snoc. apply lookup_union_Some_l. by rewrite lookup_singleton_eq.
    + rewrite app_nil_r, lookup_union_r by (by rewrite lookup_singleton_ne).
      exact IH.
Qed.

(** X20.  [lift] throws exactly when the exported function returned no
    rows ([reduce] without an initial value on an empty array).
    Otherwise, when several rows have one key, the last of them gives
    the property of the lifted object, and a key that no row has is not
    a property of it. *)
Theorem lift_last_row_wins rows :
  match lift rows with
  | Throw e => rows = [] /\ e = "TypeError"
  | Return o =>
      rows <> [] /\
      forall k, o !! k = (fun row => parse (row !! 1%nat)) <$>
                         last (filter (fun row => row_key row = k) rows)
  end.
Proof.
  destruct (lift rows) as [o|e] eqn:Hl.
  - split; [by intros ->|]. intros k. by apply lift_lookup.
  - unfold lift in Hl. destruct rows as [|row rows]; [|done].
    by injection Hl as <-.
Qed.

Lemma lift_last_row_wins_witness :
  exists o, lift [["a"; "1"]; ["b"; "x"]; ["a"; "true"]] = Return o /\
            o !! "a" = Some (VBool true).
Proof.
  pose proof (lift_last_row_wins [["a"; "1"]; ["b"; "x"]; ["a"; "true"]]) as H.
  destruct (lift [["a"; "1"]; ["b"; "x"]; ["a"; "true"]]) as [o|e].
  - exists o. split; [reflexivity|]. exact (proj2 H "a").
  - destruct H as [H _]. discriminate H.
Defined.


(** The rows [clean] makes of the fields [fs]. *)
Definition rows_of (fs : list (string * jsval)) : list (list string) :=
  (fun kv => [kv.1; toString kv.2]) <$> filter (fun kv => scalar kv.2 = true) fs.

Lemma clean_object fs :
  truthy (field "port" fs) && truthy (field "args" fs) = false ->
  clean (VObj fs) = Return (rows_of fs).
Proof.
  intros Hc. unfold clean, convert. cbn [get entries].
  destruct (truthy (field "port" fs)); [|done].
  by destruct (truthy (field "args" fs)).
Qed.

Lemma filter_all_scalar fs :
  Forall (fun kv : string * jsval => scalar kv.2 = true) fs ->
  filter (fun kv : string * jsval => scalar kv.2 = true) fs = fs.
Proof.
  induction 1 as [|kv fs Hkv _ IH]; [done|].
  rewrite filter_cons. destruct (decide _); [by rewrite IH|done].
Qed.

Lemma rows_of_key fs : forall k,
  NoDup fs.*1 ->
  Forall (fun kv : string * jsval => scalar kv.2 = true) fs ->
  last (filter (fun row => row_key row = k) (rows_of fs))
  = (fun v => [k; toString v]) <$> (list_to_map fs : gmap string jsval) !! k.
Proof.
  intros k Hnd Hsc. unfold rows_of. rewrite filter_all_scalar by done. clear Hsc.
  induction fs as [|[k' v] fs IH]; [done|].
  apply NoDup_cons in Hnd as [Hnotin Hnd]. specialize (IH Hnd).
  cbn [fmap list_fmap list_to_map foldr]. rewrite filter_cons.
  change (row_key [(k', v).1; toString (k', v).2]) with k'. cbn [fst snd uncurry].
  destruct (decide (k' = k)) as [->|Hne].
  - rewrite lookup_insert_eq. cbn [fmap option_fmap option_map].
    assert (Hfil : filter (fun row => row_key row = k)
                     ((fun kv : string * jsval => [kv.1; toString kv.2]) <$> fs) = []).
    { clear IH Hnd. induction fs as [|[k2 v2] fs IH2]; [done|].
      cbn [fmap list_fmap]. rewrite filter_cons.
      change (row_key [(k2, v2).1; toString (k2, v2).2]) with k2.
      destruct (decide (k2 = k)) as [->|_].
      - exfalso. apply Hnotin. cbn [fmap list_fmap fst]. by left.
      - apply IH2. intros Hin. apply Hnotin. cbn [fmap list_fmap]. by right. }
    by rewrite Hfil.
  - rewrite lookup_insert_ne by done. rewrite <- IH.
    destruct (filter _ _) eqn:E; done.
Qed.

(** X22.  The round trip of the adapter, with an exported function that hands
    its rows back: an object whose fields are all strings, numbers or
    booleans comes back equal to itself exactly when every field is a
    fixed point of [toString] followed by [parse]. *)
Theorem echo_round_trip fs :
  fs <> [] ->
  NoDup fs.*1 ->
  Forall (fun kv => scalar kv.2 = true) fs ->
  truthy (field "port" fs) && truthy (field "args" fs) = false ->
  callWasmFunction (fun kv => kv) (VObj fs) = Return (list_to_map fs) <->
  Forall (fun kv => parse (Some (toString kv.2)) = kv.2) fs.
Proof.
  intros Hne Hnd Hsc Hport. unfold callWasmFunction.
  rewrite clean_object by done.
  destruct (lift (rows_of fs)) as [o|e] eqn:Hl.
  2: { exfalso. unfold lift, rows_of in Hl. rewrite filter_all_scalar in Hl by done.
       by destruct fs. }
  assert (Ho : forall k, o !! k
                = (fun v => parse (Some (toString v))) <$>
                  (list_to_map fs : gmap string jsval) !! k).
  { intros k. rewrite (lift_lookup _ _ k Hl), rows_of_key by done.
    by destruct (_ !! k). }
  split.
  - intros [= ->]. apply Forall_forall. intros [k v] Hin.
    specialize (Ho k).
    rewrite (elem_of_list_to_map_1 (M:=gmap string) fs k v Hnd Hin) in Ho.
    cbn in Ho. injection Ho as Ho. cbn [snd]. by rewrite <- Ho.
  - intros Hall. f_equal. apply map_eq. intros k. rewrite Ho.
    destruct (list_to_map fs !! k) as [v|] eqn:Hk; [|done].
    apply elem_of_list_to_map_2 in Hk.
    rewrite Forall_forall in Hall. cbn. f_equal. apply (Hall _ Hk).
Qed.

Lemma echo_round_trip_witness :
  callWasmFunction (fun kv => kv)
    (VObj [("id", VNum (Dec 7 0)); ("open", VBool true); ("name", VStr "ann")])
  = Return (list_to_map
      [("id", VNum (Dec 7 0)); ("open", VBool true); ("name", VStr "ann")]).
Proof.
  apply echo_round_trip.
  - discriminate.
  - cbn [fmap list_fmap fst]. repeat constructor; rewrite ?elem_of_cons, ?elem_of_nil;
      intros H; repeat destruct H as [H|H]; try discriminate H; exact H.
  - repeat constructor.
  - reflexivity.
  - repeat constructor.
Defined.

(** A price of 1.5 comes back as 1, and text that reads as a number
    comes back as a number. *)
Example fraction_and_numeric_text_change :
  parse (Some (toString (VNum (Dec 15 (-1))))) = VNum (Dec 1 0) /\
  parse (Some (toString (VStr "42"))) = VNum (Dec 42 0) /\
  parse (Some (toString (VStr "untrue"))) = VBool true.
Proof. vm_compute. repeat split. Qed.

End WasmFacts.

(** * The use cases that submit jobs *)












